(** * CyberAI: the conversation store, the generator wrapper and the chat route

    A shallow embedding of [server/storage.ts] (class [MemStorage]),
    [server/routes.ts] (the handlers registered by [registerRoutes]) and
    [server/services/gemini.ts] ([generateChatResponse],
    [generateConversationTitle]).

    Conventions.
    - A JavaScript string is a [string]; its characters stand for code units.
    - A [Date] is the integer [getTime()] returns (milliseconds), a [Z].
    - A [Map] is an association list in iteration (insertion) order.
    - [randomUUID()], [new Date()] and the provider call are read from the
      world: each call consumes the head of the corresponding source.
    - [console.error] only logs and is left out.
    - A request is followed from its first statement to its response with no
      other request interleaved. *)

From Stdlib Require Import List String Ascii ZArith Bool Lia Sorting.Sorted
  Sorting.Permutation Lists.Finite.
Import ListNotations.
Open Scope string_scope.
Open Scope list_scope.
Open Scope Z_scope.

Set Implicit Arguments.

(* ================================================================= *)
(** * Part I. Definitions *)
(* ================================================================= *)

(** ** JavaScript strings *)

Module Js.

(** Truthiness of a string: only the empty string is falsy. *)
Definition truthy (s : string) : bool := negb (String.eqb s EmptyString).

(** Truthiness of [string | null | undefined]. *)
Definition truthy_opt (o : option string) : bool :=
  match o with
  | Some s => truthy s
  | None => false
  end.

(** [o || d] for [o : string | null | undefined] and a string [d]. *)
Definition or_else (o : option string) (d : string) : string :=
  match o with
  | Some s => if truthy s then s else d
  | None => d
  end.

(** [o || null]. *)
Definition or_null (o : option string) : option string :=
  match o with
  | Some s => if truthy s then Some s else None
  | None => None
  end.

(** [a === b] for [a : string | null] and [b : string]. *)
Definition strict_eq (a : option string) (b : string) : bool :=
  match a with
  | Some s => String.eqb s b
  | None => false
  end.

(** [hay.includes(needle)]. *)
Fixpoint includes (needle hay : string) : bool :=
  String.prefix needle hay ||
  match hay with
  | EmptyString => false
  | String _ rest => includes needle rest
  end.

(** [s.substring(0, n)]. *)
Definition substring0 (n : nat) (s : string) : string :=
  String.substring 0 n s.

Definition dquote : ascii := ascii_of_nat 34.
Definition squote : ascii := ascii_of_nat 39.

(** [s.replace(re, empty)] for the global pattern matching one single or
    one double quote character. *)
Fixpoint strip_quotes (s : string) : string :=
  match s with
  | EmptyString => EmptyString
  | String c rest =>
      if (Ascii.eqb c squote || Ascii.eqb c dquote)%bool
      then strip_quotes rest
      else String c (strip_quotes rest)
  end.

(** White space and line terminators among the first 256 code units. *)
Definition is_space (c : ascii) : bool :=
  let n := nat_of_ascii c in
  (Nat.eqb n 9 || Nat.eqb n 10 || Nat.eqb n 11 || Nat.eqb n 12
   || Nat.eqb n 13 || Nat.eqb n 32 || Nat.eqb n 160)%bool.

Fixpoint trim_start (s : string) : string :=
  match s with
  | EmptyString => EmptyString
  | String c rest => if is_space c then trim_start rest else s
  end.

Definition all_space (s : string) : bool :=
  match trim_start s with
  | EmptyString => true
  | _ => false
  end.

Fixpoint trim_end (s : string) : string :=
  match s with
  | EmptyString => EmptyString
  | String c rest => if all_space s then EmptyString
                     else String c (trim_end rest)
  end.

(** [s.trim()]. *)
Definition trim (s : string) : string := trim_end (trim_start s).

(** What a [throw] can carry: an object that is [instanceof Error], with
    its [name] and [message], or any other value. *)
Inductive Thrown : Type :=
| ThrownError (name message : string)
| ThrownOther (value : string).

(** [new Error(message)]. *)
Definition new_Error (message : string) : Thrown :=
  ThrownError "Error" message.

Definition instanceof_Error (e : Thrown) : bool :=
  match e with
  | ThrownError _ _ => true
  | ThrownOther _ => false
  end.

End Js.

(** ** [Map<string, V>]: entries in insertion order *)

Section JsMap.
Variable V : Type.

Definition JsMap := list (string * V).

Definition map_new : JsMap := [].

Definition map_has (k : string) (m : JsMap) : bool :=
  existsb (fun e => String.eqb (fst e) k) m.

Fixpoint map_get (k : string) (m : JsMap) : option V :=
  match m with
  | [] => None
  | (k', v) :: rest => if String.eqb k' k then Some v else map_get k rest
  end.

(** [m.set(k, v)]: an existing key keeps its position and takes the new
    value, a new key goes last. *)
Fixpoint map_set (k : string) (v : V) (m : JsMap) : JsMap :=
  match m with
  | [] => [(k, v)]
  | (k', v') :: rest =>
      if String.eqb k' k then (k, v) :: rest
      else (k', v') :: map_set k v rest
  end.

(** [m.delete(k)]. *)
Definition map_delete (k : string) (m : JsMap) : JsMap :=
  filter (fun e => negb (String.eqb (fst e) k)) m.

Definition map_keys (m : JsMap) : list string := map fst m.
Definition map_values (m : JsMap) : list V := map snd m.
Definition map_entries (m : JsMap) : list (string * V) := m.

End JsMap.

Arguments map_new {V}.

(** ** [Array.prototype.sort(compareFn)]

  The language requires the sort to be stable and, for a consistent
  comparator, to return the elements in comparator order.  The result is
  then determined (see [array_sort_unique]); insertion from the right is
  taken as the reference algorithm. *)

Section ArraySort.
Variable A : Type.
Variable compareFn : A -> A -> Z.

Fixpoint sort_insert (x : A) (l : list A) : list A :=
  match l with
  | [] => [x]
  | y :: rest =>
      if compareFn x y <=? 0 then x :: y :: rest
      else y :: sort_insert x rest
  end.

Definition array_sort (l : list A) : list A :=
  fold_right sort_insert [] l.

End ArraySort.

(** ** The shared schema: rows of the three tables *)

Record User : Type := mkUser {
  user_id : string;
  username : string;
  password : string
}.

Record InsertUser : Type := mkInsertUser {
  iu_username : string;
  iu_password : string
}.

Record Conversation : Type := mkConversation {
  conv_id : string;
  title : string;
  createdAt : Z
}.

Record InsertConversation : Type := mkInsertConversation {
  ic_title : string
}.

Record Message : Type := mkMessage {
  msg_id : string;
  conversationId : option string;
  role : string;
  content : string;
  timestamp : Z
}.

Record InsertMessage : Type := mkInsertMessage {
  im_conversationId : option string;
  im_role : string;
  im_content : string
}.

(** The value [chatRequestSchema.parse] returns on success. *)
Record ChatRequest : Type := mkChatRequest {
  req_message : string;
  req_conversationId : option string
}.

(** ** The provider: [ai.models.generateContent] *)

Record Content : Type := mkContent {
  c_role : string;
  c_parts : list string
}.

Record GenerateContentParameters : Type := mkParams {
  gc_model : string;
  gc_contents : list Content;
  gc_systemInstruction : option string
}.

(** The promise either resolves to a response, of which only [text] is read
    ([undefined] when the reply has no text part), or rejects. *)
Inductive ProviderResult : Type :=
| Resolved (text : option string)
| Rejected (e : Js.Thrown).

Record ProcessEnv : Type := mkEnv {
  GEMINI_API_KEY : option string;
  GOOGLE_API_KEY : option string
}.

(** ** [class MemStorage] *)

Record MemStorage : Type := mkStorage {
  users : JsMap User;
  conversations : JsMap Conversation;
  messages : JsMap Message
}.

(** [new MemStorage()]. *)
Definition MemStorage_new : MemStorage :=
  {| users := map_new; conversations := map_new; messages := map_new |}.

(** ** The world one request runs in *)

Record World : Type := mkWorld {
  storage : MemStorage;
  process_env : ProcessEnv;
  uuid_src : nat -> string;
  date_src : nat -> Z;
  ai_src : nat -> GenerateContentParameters -> ProviderResult
}.

Definition set_storage (st : MemStorage) (w : World) : World :=
  {| storage := st; process_env := process_env w; uuid_src := uuid_src w;
     date_src := date_src w; ai_src := ai_src w |}.

(** ** Computations: state passing with exceptions *)

Inductive Completion (A : Type) : Type :=
| Normal (a : A)
| Throw (e : Js.Thrown).

Arguments Normal {A} a.
Arguments Throw {A} e.

Definition M (A : Type) : Type := World -> Completion A * World.

Definition ret {A} (a : A) : M A := fun w => (Normal a, w).

Definition throw {A} (e : Js.Thrown) : M A := fun w => (Throw e, w).

Definition bind {A B} (c : M A) (k : A -> M B) : M B :=
  fun w =>
    match c w with
    | (Normal a, w') => k a w'
    | (Throw e, w') => (Throw e, w')
    end.

(** [try { c } catch (error) { h error }]. *)
Definition try_catch {A} (c : M A) (h : Js.Thrown -> M A) : M A :=
  fun w =>
    match c w with
    | (Normal a, w') => (Normal a, w')
    | (Throw e, w') => h e w'
    end.

Notation "x <- c ;; k" := (bind c (fun x => k))
  (at level 61, c at next level, right associativity).
Notation "c ;;; k" := (bind c (fun _ => k))
  (at level 61, right associativity).

Definition get_storage : M MemStorage := fun w => (Normal (storage w), w).

Definition put_storage (st : MemStorage) : M unit :=
  fun w => (Normal tt, set_storage st w).

Definition get_env : M ProcessEnv := fun w => (Normal (process_env w), w).

(** [randomUUID()]. *)
Definition randomUUID : M string :=
  fun w =>
    (Normal (uuid_src w 0%nat),
     {| storage := storage w; process_env := process_env w;
        uuid_src := fun n => uuid_src w (S n);
        date_src := date_src w; ai_src := ai_src w |}).

(** [new Date()]. *)
Definition new_Date : M Z :=
  fun w =>
    (Normal (date_src w 0%nat),
     {| storage := storage w; process_env := process_env w;
        uuid_src := uuid_src w;
        date_src := fun n => date_src w (S n); ai_src := ai_src w |}).

(** [await ai.models.generateContent(params)]. *)
Definition ai_models_generateContent
    (params : GenerateContentParameters) : M (option string) :=
  fun w =>
    let w' := {| storage := storage w; process_env := process_env w;
                 uuid_src := uuid_src w; date_src := date_src w;
                 ai_src := fun n => ai_src w (S n) |} in
    match ai_src w 0%nat params with
    | Resolved text => (Normal text, w')
    | Rejected e => (Throw e, w')
    end.

(** ** Methods of [MemStorage], on the process-wide [storage] *)

Definition with_users (us : JsMap User) (st : MemStorage) : MemStorage :=
  {| users := us; conversations := conversations st;
     messages := messages st |}.

Definition with_conversations (cs : JsMap Conversation) (st : MemStorage)
  : MemStorage :=
  {| users := users st; conversations := cs; messages := messages st |}.

Definition with_messages (ms : JsMap Message) (st : MemStorage)
  : MemStorage :=
  {| users := users st; conversations := conversations st; messages := ms |}.

Definition getUser (id : string) : M (option User) :=
  this <- get_storage ;;
  ret (map_get id (users this)).

Definition getUserByUsername (name : string) : M (option User) :=
  this <- get_storage ;;
  ret (find (fun user => String.eqb (username user) name)
            (map_values (users this))).

Definition createUser (insertUser : InsertUser) : M User :=
  id <- randomUUID ;;
  let user := {| user_id := id; username := iu_username insertUser;
                 password := iu_password insertUser |} in
  this <- get_storage ;;
  put_storage (with_users (map_set id user (users this)) this) ;;;
  ret user.

Definition createConversation (insertConversation : InsertConversation)
  : M Conversation :=
  id <- randomUUID ;;
  now <- new_Date ;;
  let conversation := {| conv_id := id;
                         title := ic_title insertConversation;
                         createdAt := now |} in
  this <- get_storage ;;
  put_storage
    (with_conversations (map_set id conversation (conversations this))
                        this) ;;;
  ret conversation.

(** The comparator of [getAllConversations]:
    [b.createdAt.getTime() - a.createdAt.getTime()]. *)
Definition newest_first (a b : Conversation) : Z :=
  createdAt b - createdAt a.

Definition getAllConversations : M (list Conversation) :=
  this <- get_storage ;;
  ret (array_sort newest_first (map_values (conversations this))).

Definition deleteConversation (id : string) : M unit :=
  this <- get_storage ;;
  let conversations' := map_delete id (conversations this) in
  let messagesToDelete :=
    map fst
        (filter (fun e => Js.strict_eq (conversationId (snd e)) id)
                (map_entries (messages this))) in
  let messages' :=
    fold_left (fun m messageId => map_delete messageId m)
              messagesToDelete (messages this) in
  put_storage
    {| users := users this; conversations := conversations';
       messages := messages' |}.

Definition createMessage (insertMessage : InsertMessage) : M Message :=
  id <- randomUUID ;;
  now <- new_Date ;;
  let message := {| msg_id := id;
                    conversationId :=
                      Js.or_null (im_conversationId insertMessage);
                    role := im_role insertMessage;
                    content := im_content insertMessage;
                    timestamp := now |} in
  this <- get_storage ;;
  put_storage (with_messages (map_set id message (messages this)) this) ;;;
  ret message.

(** The comparator of [getMessagesByConversation]:
    [a.timestamp.getTime() - b.timestamp.getTime()]. *)
Definition oldest_first (a b : Message) : Z :=
  timestamp a - timestamp b.

Definition getMessagesByConversation (id : string) : M (list Message) :=
  this <- get_storage ;;
  ret (array_sort oldest_first
         (filter (fun message => Js.strict_eq (conversationId message) id)
                 (map_values (messages this)))).

(** ** [services/gemini.ts] *)

Record ChatMessage : Type := mkChatMessage {
  cm_role : string;
  cm_content : string
}.

Definition nl : string := String (ascii_of_nat 10) EmptyString.

Definition systemInstruction : string :=
  ("You are Cyber AI, an advanced AI assistant with a cyber-themed personality. "
  ++ nl ++
  "        You are knowledgeable, helpful, and provide detailed responses. "
  ++ nl ++
  "        You can assist with coding, creative tasks, analysis, and general questions."
  ++ nl ++
  "        Maintain a professional yet engaging tone that matches your cyber AI theme.")%string.

Definition fallback_reply : string :=
  "I apologize, but I couldn't generate a response. Please try again.".

Definition err_missing_key : string :=
  "GEMINI_API_KEY environment variable is required".
Definition err_api_key : string :=
  "Invalid or missing API key. Please check your Gemini API configuration.".
Definition err_quota : string :=
  "API quota exceeded. Please try again later.".
Definition err_rate : string :=
  "Rate limit exceeded. Please wait a moment before sending another message.".
Definition err_generic : string :=
  "Failed to generate AI response. Please try again.".

Definition to_provider_content (msg : ChatMessage) : Content :=
  {| c_role := if String.eqb (cm_role msg) "assistant" then "model"
               else "user";
     c_parts := [cm_content msg] |}.

(** The argument of the provider call of [generateChatResponse]. *)
Definition chat_request (message : string)
    (conversationHistory : list ChatMessage) : GenerateContentParameters :=
  let contents :=
    map to_provider_content conversationHistory
    ++ [ {| c_role := "user"; c_parts := [message] |} ] in
  {| gc_model := "gemini-2.5-flash";
     gc_contents := contents;
     gc_systemInstruction := Some systemInstruction |}.

Definition generateChatResponse (message : string)
    (conversationHistory : list ChatMessage) : M string :=
  try_catch
    (env <- get_env ;;
     (if (negb (Js.truthy_opt (GEMINI_API_KEY env))
          && negb (Js.truthy_opt (GOOGLE_API_KEY env)))%bool
      then throw (Js.new_Error err_missing_key)
      else ret tt) ;;;
     text <- ai_models_generateContent
               (chat_request message conversationHistory) ;;
     ret (Js.or_else text fallback_reply))
    (fun error =>
       match error with
       | Js.ThrownError _ msg =>
           if Js.includes "API_KEY" msg then throw (Js.new_Error err_api_key)
           else if Js.includes "quota" msg then throw (Js.new_Error err_quota)
           else if Js.includes "rate" msg then throw (Js.new_Error err_rate)
           else throw (Js.new_Error err_generic)
       | Js.ThrownOther _ => throw (Js.new_Error err_generic)
       end).

Definition default_title : string := "New Conversation".

Definition title_prompt (firstMessage : string) : string :=
  ("Generate a short, descriptive title (max 50 characters) for a conversation that starts with: "
  ++ String Js.dquote (Js.substring0 200 firstMessage)
  ++ String Js.dquote EmptyString)%string.

(** The argument of the provider call of [generateConversationTitle]. *)
Definition title_request (firstMessage : string)
  : GenerateContentParameters :=
  {| gc_model := "gemini-2.5-flash";
     gc_contents :=
       [ {| c_role := "user"; c_parts := [title_prompt firstMessage] |} ];
     gc_systemInstruction := None |}.

Definition generateConversationTitle (firstMessage : string) : M string :=
  try_catch
    (text <- ai_models_generateContent (title_request firstMessage) ;;
     let title :=
       Js.or_else (option_map (Js.substring0 50) text) default_title in
     ret (Js.trim (Js.strip_quotes title)))
    (fun _ => ret default_title).

(** ** [routes.ts]: the handlers registered by [registerRoutes] *)

Inductive ResBody : Type :=
| ChatBody (response conversationId : string)
| ErrorBody (error : string)
| MessagesBody (l : list Message)
| ConversationsBody (l : list Conversation)
| SuccessBody (success : bool)
| HealthBody (status service : string).

Record Response : Type := mkResponse {
  res_status : Z;
  res_body : ResBody
}.

(** [res.json(b)]: the status stays at its default. *)
Definition res_json (b : ResBody) : Response :=
  {| res_status := 200; res_body := b |}.

(** [res.status(code).json(b)]. *)
Definition res_status_json (code : Z) (b : ResBody) : Response :=
  {| res_status := code; res_body := b |}.

Definition unexpected_message : string :=
  "An unexpected error occurred while processing your request.".

(** The [catch] block of the chat route. *)
Definition chat_catch (error : Js.Thrown) : Response :=
  match error with
  | Js.ThrownError _ message => res_status_json 400 (ErrorBody message)
  | Js.ThrownOther _ => res_status_json 500 (ErrorBody unexpected_message)
  end.

Definition to_history (msg : Message) : ChatMessage :=
  {| cm_role := role msg; cm_content := content msg |}.

Section Routes.

(** [chatRequestSchema] is declared in the shared schema, outside these
    files.  The handlers take its [parse] as it is used: on a body it
    either returns a [ChatRequest] or throws a [ZodError], an [Error]
    whose message is given. *)
Variable Body : Type.
Variable chatRequestSchema_parse : Body -> string + ChatRequest.

Definition parse_body (body : Body) : M ChatRequest :=
  match chatRequestSchema_parse body with
  | inr request => ret request
  | inl issues => throw (Js.ThrownError "ZodError" issues)
  end.

(** The [try] block of [app.post("/api/chat", ...)]. *)
Definition chat_try (body : Body) : M Response :=
  request <- parse_body body ;;
  let message := req_message request in
  let conversationId := req_conversationId request in
  conversationHistory <-
    match conversationId with
    | Some cid =>
        if Js.truthy cid
        then messages <- getMessagesByConversation cid ;;
             ret (map to_history messages)
        else ret []
    | None => ret []
    end ;;
  aiResponse <- generateChatResponse message conversationHistory ;;
  currentConversationId <-
    (let fresh :=
       title <- generateConversationTitle message ;;
       conversation <- createConversation {| ic_title := title |} ;;
       ret (conv_id conversation) in
     match conversationId with
     | Some cid => if Js.truthy cid then ret cid else fresh
     | None => fresh
     end) ;;
  createMessage {| im_conversationId := Some currentConversationId;
                   im_role := "user";
                   im_content := message |} ;;;
  createMessage {| im_conversationId := Some currentConversationId;
                   im_role := "assistant";
                   im_content := aiResponse |} ;;;
  ret (res_json (ChatBody aiResponse currentConversationId)).

(** [POST /api/chat]. *)
Definition post_api_chat (body : Body) : M Response :=
  try_catch (chat_try body) (fun error => ret (chat_catch error)).

End Routes.

(** [GET /api/conversations/:id/messages]. *)
Definition get_api_conversation_messages (id : string) : M Response :=
  try_catch
    (messages <- getMessagesByConversation id ;;
     ret (res_json (MessagesBody messages)))
    (fun _ => ret (res_status_json 500
                     (ErrorBody "Failed to fetch conversation messages"))).

(** [GET /api/conversations]. *)
Definition get_api_conversations : M Response :=
  try_catch
    (conversations <- getAllConversations ;;
     ret (res_json (ConversationsBody conversations)))
    (fun _ => ret (res_status_json 500
                     (ErrorBody "Failed to fetch conversations"))).

(** [DELETE /api/conversations/:id]. *)
Definition delete_api_conversation (id : string) : M Response :=
  try_catch
    (deleteConversation id ;;;
     ret (res_json (SuccessBody true)))
    (fun _ => ret (res_status_json 500
                     (ErrorBody "Failed to delete conversation"))).

(** [GET /api/health]. *)
Definition get_api_health : Response :=
  res_json (HealthBody "ok" "Cyber AI").

(** ** A request body and its schema *)

Inductive JsonValue : Type :=
| JUndefined
| JNull
| JBoolean (b : bool)
| JNumber (n : Z)
| JString (s : string).

Record RawBody : Type := mkRawBody {
  raw_message : JsonValue;
  raw_conversationId : JsonValue
}.

(** Modelled from the spec: [chatRequestSchema] of the shared schema, which
    is not among these files.  The expected shape is
    [{message: non-empty string, conversationId: optional identifier}]; any
    other body is rejected with a validation error. *)
Definition chatRequestSchema_parse (body : RawBody) : string + ChatRequest :=
  match raw_message body with
  | JString m =>
      if Js.truthy m then
        match raw_conversationId body with
        | JUndefined =>
            inr {| req_message := m; req_conversationId := None |}
        | JString c =>
            inr {| req_message := m; req_conversationId := Some c |}
        | _ => inl "conversationId: expected string"
        end
      else inl "message: expected a non-empty string"
  | _ => inl "message: expected string"
  end.

(** ** A small world to run the handlers in *)

Definition sample_storage : MemStorage :=
  {| users := map_new;
     conversations :=
       [ ("c-1", {| conv_id := "c-1"; title := "Greetings";
                    createdAt := 10 |}) ];
     messages :=
       [ ("m-1", {| msg_id := "m-1"; conversationId := Some "c-1";
                    role := "user"; content := "Hello"; timestamp := 11 |});
         ("m-2", {| msg_id := "m-2"; conversationId := Some "c-1";
                    role := "assistant"; content := "Hi there";
                    timestamp := 12 |}) ] |}.

Definition sample_uuid (n : nat) : string :=
  match n with
  | 0%nat => "u-0"
  | 1%nat => "u-1"
  | 2%nat => "u-2"
  | _ => "u-3"
  end.

(** The provider answers every call with the same text. *)
Definition sample_world : World :=
  {| storage := sample_storage;
     process_env := {| GEMINI_API_KEY := Some "secret";
                       GOOGLE_API_KEY := None |};
     uuid_src := sample_uuid;
     date_src := fun n => 100 + Z.of_nat n;
     ai_src := fun _ _ => Resolved (Some "Welcome back") |}.

(** The same world with no credential. *)
Definition sample_world_no_key : World :=
  {| storage := sample_storage;
     process_env := {| GEMINI_API_KEY := None; GOOGLE_API_KEY := None |};
     uuid_src := sample_uuid;
     date_src := fun n => 100 + Z.of_nat n;
     ai_src := fun _ _ => Resolved (Some "Welcome back") |}.


(** The same world with a provider that is down. *)
Definition sample_world_down : World :=
  {| storage := sample_storage;
     process_env := {| GEMINI_API_KEY := Some "secret";
                       GOOGLE_API_KEY := None |};
     uuid_src := sample_uuid;
     date_src := fun n => 100 + Z.of_nat n;
     ai_src := fun _ _ =>
                 Rejected (Js.new_Error "503 Service Unavailable") |}.

(** ** Vocabulary of the statements *)

(** [l] is in non-decreasing [key] order. *)
Definition ordered_by {A} (key : A -> Z) (l : list A) : Prop :=
  StronglySorted (fun a b => key a <= key b) l.

(** The elements of [l] whose key is [k], in the order of [l]. *)
Definition with_key {A} (key : A -> Z) (k : Z) (l : list A) : list A :=
  filter (fun a => key a =? k) l.

(** [out] holds the elements of [l] in non-decreasing [key] order, elements
    of equal key in the order they have in [l]. *)
Definition stable_sorted {A} (key : A -> Z) (l out : list A) : Prop :=
  Permutation l out /\
  ordered_by key out /\
  forall k, with_key key k out = with_key key k l.

(** The messages of the store whose [conversationId] is [id], in [Map]
    order. *)
Definition messages_under (id : string) (st : MemStorage) : list Message :=
  filter (fun message => Js.strict_eq (conversationId message) id)
         (map_values (messages st)).

(** [l] lists conversations from the newest to the oldest. *)
Definition newest_first_order (l : list Conversation) : Prop :=
  StronglySorted (fun a b => createdAt b <= createdAt a) l.

(** The history the chat route hands to [generateChatResponse]. *)
Definition chat_history (request : ChatRequest) (st : MemStorage)
  : list ChatMessage :=
  match req_conversationId request with
  | Some cid =>
      if Js.truthy cid
      then map to_history (array_sort oldest_first (messages_under cid st))
      else []
  | None => []
  end.

(** The keys of a [Map] filled by the store: ids returned by
    [randomUUID()], hence non-empty, and pairwise distinct. *)
Definition keys_issued {V} (m : JsMap V) : Prop :=
  NoDup (map_keys m) /\ Forall (fun k => Js.truthy k = true) (map_keys m).

Definition storage_inv (st : MemStorage) : Prop :=
  keys_issued (users st) /\
  keys_issued (conversations st) /\
  keys_issued (messages st).

(** The next [n] results of [randomUUID()] are non-empty, pairwise distinct
    and not yet keys of the store. *)
Definition uuid_fresh (n : nat) (w : World) : Prop :=
  let ids := map (uuid_src w) (seq 0 n) in
  NoDup ids /\
  Forall (fun id =>
            Js.truthy id = true /\
            map_has id (users (storage w)) = false /\
            map_has id (conversations (storage w)) = false /\
            map_has id (messages (storage w)) = false) ids.

(** The clock does not run backwards: its readings are non-decreasing and
    none is earlier than the timestamp of a stored message. *)
Definition clock_monotone (w : World) : Prop :=
  (forall i j, (i <= j)%nat -> date_src w i <= date_src w j) /\
  Forall (fun m => timestamp m <= date_src w 0%nat)
         (map_values (messages (storage w))).

(** Two worlds that differ at most in what the provider will answer. *)
Definition same_but_provider (w w' : World) : Prop :=
  storage w' = storage w /\
  process_env w' = process_env w /\
  uuid_src w' = uuid_src w /\
  date_src w' = date_src w.

(** The four failures of [generateChatResponse]. *)
Definition generation_errors : list string :=
  [err_api_key; err_quota; err_rate; err_generic].

(** A world the server can be in: the store holds issued ids only,
    [randomUUID()] never repeats itself nor returns an id in use, and the
    clock does not run backwards. *)
Definition world_ok (w : World) : Prop :=
  storage_inv (storage w) /\
  (forall i j, uuid_src w i = uuid_src w j -> i = j) /\
  (forall i,
     Js.truthy (uuid_src w i) = true /\
     map_has (uuid_src w i) (users (storage w)) = false /\
     map_has (uuid_src w i) (conversations (storage w)) = false /\
     map_has (uuid_src w i) (messages (storage w)) = false) /\
  clock_monotone w.

(** [c] takes worlds the server can be in to such worlds, whether it
    returns or throws. *)
Definition preserves {A} (c : M A) : Prop :=
  forall w r w', world_ok w -> c w = (r, w') -> world_ok w'.

(** The failure classes of the specification, read off a thrown value: a
    validation failure is the [ZodError] of the schema, a generation
    failure one of the four errors of [generateChatResponse]. *)
Definition is_validation_failure (e : Js.Thrown) : bool :=
  match e with
  | Js.ThrownError name _ => String.eqb name "ZodError"
  | Js.ThrownOther _ => false
  end.

Definition is_generation_failure (e : Js.Thrown) : bool :=
  match e with
  | Js.ThrownError name message =>
      String.eqb name "Error"
      && existsb (String.eqb message) generation_errors
  | Js.ThrownOther _ => false
  end.

(** The status the specification gives a failure of the chat route: 400
    for a validation or generation failure, 500 for any other exception. *)
Definition spec_chat_status (e : Js.Thrown) : Z :=
  if (is_validation_failure e || is_generation_failure e)%bool
  then 400 else 500.

(** ** Vocabulary of the further properties *)

(** The same world with one registered user. *)
Definition sample_world_users : World :=
  {| storage :=
       {| users := [ ("p-1", {| user_id := "p-1"; username := "ada";
                                password := "pw-1" |}) ];
          conversations := conversations sample_storage;
          messages := messages sample_storage |};
     process_env := {| GEMINI_API_KEY := Some "secret";
                       GOOGLE_API_KEY := None |};
     uuid_src := sample_uuid;
     date_src := fun n => 100 + Z.of_nat n;
     ai_src := fun _ _ => Resolved (Some "Welcome back") |}.

(** The same world with a provider that fails on every call with a
    message of its own. *)
Definition sample_world_overloaded : World :=
  {| storage := sample_storage;
     process_env := {| GEMINI_API_KEY := Some "secret";
                       GOOGLE_API_KEY := None |};
     uuid_src := sample_uuid;
     date_src := fun n => 100 + Z.of_nat n;
     ai_src := fun _ _ =>
                 Rejected (Js.new_Error
                             "The model is overloaded, could not generate content") |}.

(** The same world with a provider that answers with two double quotes
    and nothing else. *)
Definition sample_world_quotes : World :=
  {| storage := sample_storage;
     process_env := {| GEMINI_API_KEY := Some "secret";
                       GOOGLE_API_KEY := None |};
     uuid_src := sample_uuid;
     date_src := fun n => 100 + Z.of_nat n;
     ai_src := fun _ _ =>
                 Resolved
                   (Some (String Js.dquote (String Js.dquote EmptyString))) |}.

(** The fixed text of the title prompt, up to the opening quote. *)
Definition title_prompt_head : string :=
  "Generate a short, descriptive title (max 50 characters) for a conversation that starts with: ".

(** No character of [s] is a single or a double quote. *)
Definition no_quote (s : string) : Prop :=
  Forall (fun c => c <> Js.squote /\ c <> Js.dquote)
         (list_ascii_of_string s).

Definition starts_with_space (s : string) : bool :=
  match s with
  | EmptyString => false
  | String c _ => Js.is_space c
  end.

Fixpoint ends_with_space (s : string) : bool :=
  match s with
  | EmptyString => false
  | String c EmptyString => Js.is_space c
  | String _ rest => ends_with_space rest
  end.

(** Every conversation is stored under its own [id]. *)
Definition keyed_by_id (st : MemStorage) : Prop :=
  Forall (fun e => conv_id (snd e) = fst e) (conversations st).

(** A transcript made of exchanges: a user message, then the assistant
    message that answers it. *)
Inductive paired : list Message -> Prop :=
| paired_nil : paired []
| paired_cons u a l :
    role u = "user" -> role a = "assistant" -> paired l ->
    paired (u :: a :: l).

(** A world with well-formed transcripts: besides [world_ok], the message
    map is in timestamp order and the messages of every conversation form
    exchanges. *)
Definition transcript_ok (w : World) : Prop :=
  world_ok w /\
  ordered_by timestamp (map_values (messages (storage w))) /\
  forall id, paired (messages_under id (storage w)).

(** [c], run from its first statement to its last with nothing
    interleaved, takes worlds with well-formed transcripts to such
    worlds. *)
Definition keeps_transcripts {A} (c : M A) : Prop :=
  forall w r w', transcript_ok w -> c w = (r, w') -> transcript_ok w'.

(** Ids that never repeat: a tally. *)
Fixpoint tally (n : nat) : string :=
  match n with
  | O => "u"
  | S n' => String "x" (tally n')
  end.

(** A server that has just started: an empty store, a credential, ids
    that never repeat, a clock that ticks, a provider that answers. *)
Definition start_world : World :=
  {| storage := MemStorage_new;
     process_env := {| GEMINI_API_KEY := Some "secret";
                       GOOGLE_API_KEY := None |};
     uuid_src := tally;
     date_src := fun n => Z.of_nat n;
     ai_src := fun _ _ => Resolved (Some "Welcome") |}.


(* ================================================================= *)
(** * Part II. Lemmas on maps, sorting and the computations *)
(* ================================================================= *)

Section JsMapFacts.
Variable V : Type.
Implicit Types (m : JsMap V) (k : string) (v : V).

Lemma map_has_In k m : map_has k m = true <-> In k (map_keys m).
Proof.
  unfold map_has, map_keys. rewrite existsb_exists. split.
  - intros [[k' v] [Hin Heq]]. simpl in Heq.
    apply String.eqb_eq in Heq. subst.
    change k with (fst (k, v)). now apply in_map.
  - intros Hin. apply in_map_iff in Hin. destruct Hin as [e [Hk Hin]].
    exists e. split; [assumption|]. subst. apply String.eqb_refl.
Qed.

Lemma map_has_false k m : map_has k m = false <-> ~ In k (map_keys m).
Proof.
  rewrite <- map_has_In. destruct (map_has k m); split;
    congruence || tauto.
Qed.

Lemma map_has_app k m1 m2 :
  map_has k (m1 ++ m2) = (map_has k m1 || map_has k m2)%bool.
Proof. apply existsb_app. Qed.

(** Setting a key the map does not hold appends the entry. *)
Lemma map_set_fresh k v m :
  map_has k m = false -> map_set k v m = m ++ [(k, v)].
Proof.
  induction m as [|[k' v'] m IH]; simpl; intros H; [reflexivity|].
  apply orb_false_iff in H. destruct H as [Hk Hm].
  rewrite Hk. now rewrite IH.
Qed.

Lemma map_set_keys_present k v m :
  map_has k m = true -> map_keys (map_set k v m) = map_keys m.
Proof.
  induction m as [|[k' v'] m IH]; simpl; intros H; [discriminate|].
  destruct (String.eqb_spec k' k) as [->|Hne]; simpl; [reflexivity|].
  simpl in H. now rewrite IH.
Qed.

Lemma map_delete_has k m : map_has k (map_delete k m) = false.
Proof.
  apply map_has_false. unfold map_delete, map_keys. intros Hin.
  apply in_map_iff in Hin. destruct Hin as [e [Hk Hin]].
  apply filter_In in Hin. destruct Hin as [_ Hne].
  subst. now rewrite String.eqb_refl in Hne.
Qed.

(** Deleting an absent key leaves the map as it is. *)
Lemma map_delete_absent k m : map_has k m = false -> map_delete k m = m.
Proof.
  induction m as [|[k' v'] m IH]; simpl; intros H; [reflexivity|].
  apply orb_false_iff in H. destruct H as [Hk Hm].
  rewrite Hk. simpl. now rewrite IH.
Qed.

Lemma map_delete_incl k m e : In e (map_delete k m) -> In e m.
Proof. unfold map_delete. intros H. now apply filter_In in H. Qed.

(** Deleting a list of keys keeps exactly the entries with other keys. *)
Lemma fold_map_delete (ks : list string) m :
  fold_left (fun acc k => map_delete k acc) ks m =
  filter (fun e => negb (existsb (String.eqb (fst e)) ks)) m.
Proof.
  revert m. induction ks as [|k ks IH]; intros m; simpl.
  - induction m as [|e m IHm]; simpl; [reflexivity|]. now rewrite <- IHm.
  - rewrite IH. unfold map_delete.
    induction m as [|e m IHm]; simpl; [reflexivity|].
    destruct (String.eqb (fst e) k); simpl; [assumption|].
    destruct (existsb (String.eqb (fst e)) ks); simpl;
      [assumption | now rewrite IHm].
Qed.

Lemma keys_issued_nil : keys_issued (@map_new V).
Proof. split; constructor. Qed.

Lemma keys_issued_set k v m :
  keys_issued m -> Js.truthy k = true -> map_has k m = false ->
  keys_issued (map_set k v m).
Proof.
  intros [Hnd Hall] Hk Hfresh. rewrite map_set_fresh by assumption.
  unfold keys_issued, map_keys. rewrite map_app. simpl. split.
  - apply NoDup_app; [assumption | repeat constructor; intros [] |].
    intros x Hx [<-|[]]. apply map_has_false in Hfresh. tauto.
  - apply Forall_app. split; [assumption | now repeat constructor].
Qed.

Lemma keys_issued_filter (f : string * V -> bool) m :
  keys_issued m -> keys_issued (filter f m).
Proof.
  intros [Hnd Hall]. unfold keys_issued, map_keys in *.
  induction m as [|e m IH]; simpl; [split; constructor|].
  inversion Hnd as [|? ? Hnot Hnd']; subst.
  inversion Hall as [|? ? Hk Hall']; subst.
  destruct (IH Hnd' Hall') as [IH1 IH2].
  destruct (f e); simpl; [|now split].
  split; constructor; try assumption.
  intros Hin. apply Hnot. apply in_map_iff in Hin.
  destruct Hin as [e' [He Hin]]. apply filter_In in Hin.
  rewrite <- He. apply in_map. tauto.
Qed.


End JsMapFacts.

Section ArraySortFacts.
Variable A : Type.
Variable compareFn : A -> A -> Z.
Variable key : A -> Z.
Hypothesis compare_key : forall a b, compareFn a b = key a - key b.

Lemma compare_le a b : (compareFn a b <=? 0) = (key a <=? key b).
Proof.
  rewrite compare_key.
  destruct (Z.leb_spec (key a - key b) 0), (Z.leb_spec (key a) (key b));
    reflexivity || lia.
Qed.

Lemma sort_insert_perm x l : Permutation (x :: l) (sort_insert compareFn x l).
Proof.
  induction l as [|y l IH]; simpl; [reflexivity|].
  destruct (compareFn x y <=? 0); [reflexivity|].
  rewrite perm_swap. now constructor.
Qed.

Lemma array_sort_perm l : Permutation l (array_sort compareFn l).
Proof.
  induction l as [|x l IH]; simpl; [constructor|].
  rewrite <- sort_insert_perm. now constructor.
Qed.

Lemma sort_insert_ordered x l :
  ordered_by key l -> ordered_by key (sort_insert compareFn x l).
Proof.
  unfold ordered_by.
  induction l as [|y l IH]; simpl; intros Hs.
  - repeat constructor.
  - inversion Hs as [|? ? Hl Hy]; subst.
    rewrite compare_le. destruct (Z.leb_spec (key x) (key y)) as [Hle|Hgt].
    + constructor; [assumption|]. constructor; [assumption|].
      eapply Forall_impl; [|exact Hy]. simpl. intros; lia.
    + constructor; [now apply IH|].
      eapply Permutation_Forall; [apply sort_insert_perm|].
      constructor; [lia | assumption].
Qed.

Lemma array_sort_ordered l : ordered_by key (array_sort compareFn l).
Proof.
  induction l as [|x l IH]; simpl; [constructor|].
  now apply sort_insert_ordered.
Qed.

(** Insertion keeps the new element ahead of the elements of equal key. *)
Lemma sort_insert_with_key k x l :
  with_key key k (sort_insert compareFn x l) = with_key key k (x :: l).
Proof.
  unfold with_key.
  induction l as [|y l IH]; simpl; [reflexivity|].
  rewrite compare_le. destruct (Z.leb_spec (key x) (key y)) as [Hle|Hgt].
  - reflexivity.
  - simpl. rewrite IH. simpl.
    destruct (Z.eqb_spec (key x) k), (Z.eqb_spec (key y) k);
      reflexivity || lia.
Qed.

Lemma array_sort_with_key k l :
  with_key key k (array_sort compareFn l) = with_key key k l.
Proof.
  induction l as [|x l IH]; simpl; [reflexivity|].
  rewrite sort_insert_with_key. unfold with_key in *. simpl.
  now rewrite IH.
Qed.

Lemma array_sort_stable_sorted l :
  stable_sorted key l (array_sort compareFn l).
Proof.
  split; [apply array_sort_perm|].
  split; [apply array_sort_ordered|].
  intros k. apply array_sort_with_key.
Qed.

(** Two ordered lists with the same elements of each key, in the same
    order, are the same list. *)
Lemma ordered_with_key_unique (l1 l2 : list A) :
  ordered_by key l1 -> ordered_by key l2 ->
  (forall k, with_key key k l1 = with_key key k l2) -> l1 = l2.
Proof.
  unfold ordered_by, with_key. revert l2.
  induction l1 as [|a l1 IH]; intros [|b l2] S1 S2 E.
  - reflexivity.
  - specialize (E (key b)). simpl in E. rewrite Z.eqb_refl in E.
    discriminate.
  - specialize (E (key a)). simpl in E. rewrite Z.eqb_refl in E.
    discriminate.
  - inversion S1 as [|? ? S1' F1]; inversion S2 as [|? ? S2' F2]; subst.
    rewrite Forall_forall in F1, F2.
    assert (Hba : key b <= key a).
    { assert (Hin : In a (b :: l2)).
      { eapply proj1. apply filter_In. rewrite <- (E (key a)).
        simpl. rewrite Z.eqb_refl. now left. }
      destruct Hin as [->|Hin]; [lia | now apply F2]. }
    assert (Hab : key a <= key b).
    { assert (Hin : In b (a :: l1)).
      { eapply proj1. apply filter_In. rewrite (E (key b)).
        simpl. rewrite Z.eqb_refl. now left. }
      destruct Hin as [->|Hin]; [lia | now apply F1]. }
    assert (Heq : a = b).
    { specialize (E (key a)). simpl in E. rewrite Z.eqb_refl in E.
      replace (key b =? key a) with true in E
        by (symmetry; apply Z.eqb_eq; lia).
      now injection E. }
    subst b. f_equal. apply IH; try assumption.
    intros k. specialize (E k). simpl in E.
    destruct (key a =? k); [now injection E | assumption].
Qed.

(** The stable sort of a list is determined: whatever algorithm the engine
    runs, its result is the one of [array_sort]. *)
Lemma array_sort_unique l out :
  stable_sorted key l out -> out = array_sort compareFn l.
Proof.
  intros [_ [Hord Hst]]. apply ordered_with_key_unique.
  - assumption.
  - apply array_sort_ordered.
  - intros k. now rewrite Hst, array_sort_with_key.
Qed.

Lemma ordered_by_app l r :
  ordered_by key l -> ordered_by key r ->
  (forall x y, In x l -> In y r -> key x <= key y) ->
  ordered_by key (l ++ r).
Proof.
  unfold ordered_by. induction l as [|a l IH]; simpl; intros Hl Hr Hx.
  - assumption.
  - inversion Hl as [|? ? Hl' Fa]; subst. constructor.
    + apply IH; auto.
    + apply Forall_app. split; [assumption|].
      apply Forall_forall. intros y Hy. apply Hx; auto.
Qed.


Lemma array_sort_In x l : In x (array_sort compareFn l) <-> In x l.
Proof.
  split; apply Permutation_in;
    [symmetry|]; apply array_sort_perm.
Qed.

End ArraySortFacts.

(** ** The store *)

Lemma filter_none {A} (f : A -> bool) (l : list A) :
  (forall x, In x l -> f x = false) -> filter f l = [].
Proof.
  induction l as [|x l IH]; simpl; intros H; [reflexivity|].
  rewrite (H x) by now left. apply IH. intros; apply H; now right.
Qed.

Lemma StronglySorted_impl {A} (R R' : A -> A -> Prop) (l : list A) :
  (forall a b, R a b -> R' a b) ->
  StronglySorted R l -> StronglySorted R' l.
Proof.
  intros HR. induction 1 as [|a l Hs IH Hf]; constructor; [assumption|].
  eapply Forall_impl; [|exact Hf]. auto.
Qed.

Lemma oldest_first_key a b : oldest_first a b = timestamp a - timestamp b.
Proof. reflexivity. Qed.

Lemma newest_first_key a b :
  newest_first a b = (fun c => - createdAt c) a - (fun c => - createdAt c) b.
Proof. unfold newest_first. lia. Qed.

Lemma strict_eq_true c id : Js.strict_eq c id = true <-> c = Some id.
Proof.
  destruct c as [s|]; simpl.
  - rewrite String.eqb_eq. split; congruence.
  - split; discriminate.
Qed.

Lemma or_null_falsy c : Js.truthy_opt c = false -> Js.or_null c = None.
Proof. destruct c as [s|]; simpl; [intros ->|]; reflexivity. Qed.

Lemma or_null_truthy s : Js.truthy s = true -> Js.or_null (Some s) = Some s.
Proof. simpl. now intros ->. Qed.

(** The reads return without touching the world. *)
Lemma getMessagesByConversation_run id w :
  getMessagesByConversation id w =
  (Normal (array_sort oldest_first (messages_under id (storage w))), w).
Proof. reflexivity. Qed.

Lemma getAllConversations_run w :
  getAllConversations w =
  (Normal (array_sort newest_first (map_values (conversations (storage w)))),
   w).
Proof. reflexivity. Qed.

Lemma messages_under_In id st m :
  In m (messages_under id st) <->
  In m (map_values (messages st)) /\ conversationId m = Some id.
Proof.
  unfold messages_under. rewrite filter_In. now rewrite strict_eq_true.
Qed.

(** What [deleteConversation] leaves in the two maps. *)
Lemma deleteConversation_run id w :
  deleteConversation id w =
  (Normal tt,
   set_storage
     {| users := users (storage w);
        conversations := map_delete id (conversations (storage w));
        messages :=
          filter (fun e =>
                    negb (existsb (String.eqb (fst e))
                            (map fst
                               (filter
                                  (fun e' =>
                                     Js.strict_eq (conversationId (snd e')) id)
                                  (messages (storage w))))))
                 (messages (storage w)) |} w).
Proof.
  unfold deleteConversation, bind, get_storage, put_storage, map_entries.
  now rewrite fold_map_delete.
Qed.

Lemma deleteConversation_survivor id w e :
  In e (messages (storage (snd (deleteConversation id w)))) ->
  In e (messages (storage w)) /\
  Js.strict_eq (conversationId (snd e)) id = false.
Proof.
  rewrite deleteConversation_run. simpl. intros H.
  apply filter_In in H. destruct H as [Hin Hk]. split; [assumption|].
  destruct (Js.strict_eq (conversationId (snd e)) id) eqn:Heq;
    [|reflexivity].
  apply negb_true_iff in Hk.
  assert (Hex : existsb (String.eqb (fst e))
            (map fst
               (filter (fun e' => Js.strict_eq (conversationId (snd e')) id)
                       (messages (storage w)))) = true).
  { apply existsb_exists. exists (fst e). split; [|apply String.eqb_refl].
    apply in_map. apply filter_In. now split. }
  congruence.
Qed.

(** With pairwise distinct keys, the messages of the other conversations
    all stay, in their order. *)
Lemma deleteConversation_keeps_others id w :
  NoDup (map_keys (messages (storage w))) ->
  messages (storage (snd (deleteConversation id w))) =
  filter (fun e => negb (Js.strict_eq (conversationId (snd e)) id))
         (messages (storage w)).
Proof.
  rewrite deleteConversation_run. simpl. intros Hnd.
  apply filter_ext_in. intros e Hin. f_equal.
  destruct (Js.strict_eq (conversationId (snd e)) id) eqn:Heq.
  - apply existsb_exists. exists (fst e). split; [|apply String.eqb_refl].
    apply in_map. apply filter_In. now split.
  - apply not_true_is_false. intros Hex. apply existsb_exists in Hex.
    destruct Hex as [k [Hk Heqk]]. apply String.eqb_eq in Heqk. subst k.
    apply in_map_iff in Hk. destruct Hk as [e' [Hfst He']].
    apply filter_In in He'. destruct He' as [Hin' Hid].
    assert (e' = e); [|congruence].
    clear Heq Hid. unfold map_keys in Hnd.
    induction (messages (storage w)) as [|x l IH]; [contradiction|].
    inversion Hnd as [|? ? Hnot Hnd']; subst.
    destruct Hin as [->|Hin], Hin' as [->|Hin']; auto.
    + exfalso. apply Hnot. rewrite <- Hfst. now apply in_map.
    + exfalso. apply Hnot. rewrite Hfst. now apply in_map.
Qed.

(** ** The generator *)

Lemma same_but_provider_refl w : same_but_provider w w.
Proof. repeat split. Qed.

Lemma ai_models_generateContent_frame params w r w' :
  ai_models_generateContent params w = (r, w') -> same_but_provider w w'.
Proof.
  unfold ai_models_generateContent.
  destruct (ai_src w 0%nat params); intros H; injection H as <- <-;
    repeat split.
Qed.

Lemma classify_throws (error : Js.Thrown) (w : World) :
  exists msg,
    In msg generation_errors /\
    match error with
    | Js.ThrownError _ m =>
        if Js.includes "API_KEY" m
        then @throw string (Js.new_Error err_api_key)
        else if Js.includes "quota" m then throw (Js.new_Error err_quota)
        else if Js.includes "rate" m then throw (Js.new_Error err_rate)
        else throw (Js.new_Error err_generic)
    | Js.ThrownOther _ => throw (Js.new_Error err_generic)
    end w = (Throw (Js.new_Error msg), w).
Proof.
  unfold generation_errors. destruct error as [n m|v].
  - destruct (Js.includes "API_KEY" m);
      [|destruct (Js.includes "quota" m);
        [|destruct (Js.includes "rate" m)]];
      eexists; (split; [|reflexivity]); simpl; tauto.
  - eexists; (split; [|reflexivity]); simpl; tauto.
Qed.

(** [generateChatResponse] touches neither the store nor the id and clock
    sources, and what it throws is an [Error] with one of four messages. *)
Lemma generateChatResponse_outcome message history w :
  exists w',
    same_but_provider w w' /\
    ((exists reply, generateChatResponse message history w
                    = (Normal reply, w')) \/
     (exists msg, In msg generation_errors /\
                  generateChatResponse message history w
                  = (Throw (Js.new_Error msg), w'))).
Proof.
  unfold generateChatResponse, try_catch, bind, get_env.
  destruct (negb (Js.truthy_opt (GEMINI_API_KEY (process_env w)))
            && negb (Js.truthy_opt (GOOGLE_API_KEY (process_env w))))%bool.
  - exists w. split; [apply same_but_provider_refl|]. right.
    exists err_api_key. split; [simpl; tauto | reflexivity].
  - unfold ret. cbv beta iota.
    destruct (ai_models_generateContent (chat_request message history) w)
      as [[text|e] w1] eqn:Hai;
      pose proof (ai_models_generateContent_frame _ _ Hai) as Hfr;
      exists w1; (split; [exact Hfr|]).
    + left. eexists. reflexivity.
    + right. destruct (classify_throws e w1) as [msg [Hin Heq]].
      exists msg. split; [exact Hin | exact Heq].
Qed.

Lemma generateChatResponse_frame message history w r w' :
  generateChatResponse message history w = (r, w') ->
  same_but_provider w w'.
Proof.
  intros H.
  destruct (generateChatResponse_outcome message history w)
    as [w1 [Hfr [[reply Heq]|[msg [_ Heq]]]]];
    rewrite Heq in H; injection H as _ <-; exact Hfr.
Qed.

Lemma generateChatResponse_throws message history w e w' :
  generateChatResponse message history w = (Throw e, w') ->
  exists msg, In msg generation_errors /\ e = Js.new_Error msg.
Proof.
  intros H.
  destruct (generateChatResponse_outcome message history w)
    as [w1 [Hfr [[reply Heq]|[msg [Hin Heq]]]]];
    rewrite Heq in H; [discriminate|].
  injection H as <- _. now exists msg.
Qed.

(** No credential: the call fails before the provider is reached. *)
Lemma generateChatResponse_no_key message history w :
  Js.truthy_opt (GEMINI_API_KEY (process_env w)) = false ->
  Js.truthy_opt (GOOGLE_API_KEY (process_env w)) = false ->
  generateChatResponse message history w
  = (Throw (Js.new_Error err_api_key), w).
Proof.
  intros H1 H2.
  unfold generateChatResponse, try_catch, bind, get_env.
  rewrite H1, H2. reflexivity.
Qed.

Lemma or_else_falsy text d :
  Js.truthy_opt text = false ->
  Js.or_else (option_map (Js.substring0 50) text) d = d.
Proof.
  destruct text as [[|c s]|]; simpl; [reflexivity | discriminate |
                                      reflexivity].
Qed.

Lemma default_title_clean :
  Js.trim (Js.strip_quotes default_title) = default_title.
Proof. reflexivity. Qed.

Lemma generateConversationTitle_outcome firstMessage w :
  exists title w',
    generateConversationTitle firstMessage w = (Normal title, w') /\
    same_but_provider w w'.
Proof.
  unfold generateConversationTitle, try_catch, bind.
  destruct (ai_models_generateContent (title_request firstMessage) w)
    as [[text|e] w1] eqn:Hai;
    pose proof (ai_models_generateContent_frame _ _ Hai) as Hfr;
    do 2 eexists; (split; [reflexivity | exact Hfr]).
Qed.

(** ** Running computations step by step *)

Lemma bind_normal {A B} (c : M A) (k : A -> M B) w a w' :
  c w = (Normal a, w') -> bind c k w = k a w'.
Proof. unfold bind. now intros ->. Qed.

Lemma bind_throw {A B} (c : M A) (k : A -> M B) w e w' :
  c w = (Throw e, w') -> bind c k w = (Throw e, w').
Proof. unfold bind. now intros ->. Qed.

Lemma try_normal {A} (c : M A) h w a w' :
  c w = (Normal a, w') -> try_catch c h w = (Normal a, w').
Proof. unfold try_catch. now intros ->. Qed.

Lemma try_throw {A} (c : M A) h w e w' :
  c w = (Throw e, w') -> try_catch c h w = h e w'.
Proof. unfold try_catch. now intros ->. Qed.

(** One [createMessage] with an id the map does not hold yet. *)
Lemma createMessage_fresh insertMessage w :
  map_has (uuid_src w 0%nat) (messages (storage w)) = false ->
  let message :=
    {| msg_id := uuid_src w 0%nat;
       conversationId := Js.or_null (im_conversationId insertMessage);
       role := im_role insertMessage;
       content := im_content insertMessage;
       timestamp := date_src w 0%nat |} in
  createMessage insertMessage w =
  (Normal message,
   {| storage :=
        with_messages
          (messages (storage w) ++ [(uuid_src w 0%nat, message)])
          (storage w);
      process_env := process_env w;
      uuid_src := fun n => uuid_src w (S n);
      date_src := fun n => date_src w (S n);
      ai_src := ai_src w |}).
Proof.
  intros Hfresh message.
  unfold createMessage, bind, randomUUID, new_Date, get_storage,
    put_storage, ret, set_storage. simpl.
  now rewrite map_set_fresh.
Qed.

Lemma createConversation_fresh insertConversation w :
  map_has (uuid_src w 0%nat) (conversations (storage w)) = false ->
  let conversation :=
    {| conv_id := uuid_src w 0%nat;
       title := ic_title insertConversation;
       createdAt := date_src w 0%nat |} in
  createConversation insertConversation w =
  (Normal conversation,
   {| storage :=
        with_conversations
          (conversations (storage w) ++ [(uuid_src w 0%nat, conversation)])
          (storage w);
      process_env := process_env w;
      uuid_src := fun n => uuid_src w (S n);
      date_src := fun n => date_src w (S n);
      ai_src := ai_src w |}).
Proof.
  intros Hfresh conversation.
  unfold createConversation, bind, randomUUID, new_Date, get_storage,
    put_storage, ret, set_storage. simpl.
  now rewrite map_set_fresh.
Qed.

(** The two writes that end a successful turn. *)
Lemma persist_turn cid message aiResponse w :
  Js.truthy cid = true ->
  map_has (uuid_src w 0%nat) (messages (storage w)) = false ->
  map_has (uuid_src w 1%nat) (messages (storage w)) = false ->
  uuid_src w 0%nat <> uuid_src w 1%nat ->
  exists w',
    (createMessage {| im_conversationId := Some cid; im_role := "user";
                      im_content := message |} ;;;
     createMessage {| im_conversationId := Some cid; im_role := "assistant";
                      im_content := aiResponse |} ;;;
     ret (res_json (ChatBody aiResponse cid))) w
    = (Normal (res_json (ChatBody aiResponse cid)), w') /\
    users (storage w') = users (storage w) /\
    conversations (storage w') = conversations (storage w) /\
    messages (storage w') =
      messages (storage w)
      ++ [ (uuid_src w 0%nat,
            {| msg_id := uuid_src w 0%nat; conversationId := Some cid;
               role := "user"; content := message;
               timestamp := date_src w 0%nat |});
           (uuid_src w 1%nat,
            {| msg_id := uuid_src w 1%nat; conversationId := Some cid;
               role := "assistant"; content := aiResponse;
               timestamp := date_src w 1%nat |}) ].
Proof.
  intros Hcid Hu Ha Hne.
  eexists. split.
  - erewrite bind_normal by (apply createMessage_fresh; exact Hu).
    erewrite bind_normal.
    2:{ apply createMessage_fresh. simpl. rewrite map_has_app, Ha. simpl.
        rewrite orb_false_r. now apply String.eqb_neq. }
    reflexivity.
  - simpl. rewrite Hcid. rewrite <- app_assoc.
    repeat split.
Qed.

Lemma map_set_In {V} k (v : V) m : In (k, v) (map_set k v m).
Proof.
  induction m as [|[k' v'] m IH]; simpl; [now left|].
  destruct (String.eqb k' k); [now left | now right].
Qed.

Lemma createMessage_run insertMessage w :
  exists m w',
    createMessage insertMessage w = (Normal m, w') /\
    conversationId m = Js.or_null (im_conversationId insertMessage) /\
    role m = im_role insertMessage /\
    content m = im_content insertMessage /\
    In m (map_values (messages (storage w'))).
Proof.
  unfold createMessage, bind, randomUUID, new_Date, get_storage,
    put_storage, ret, set_storage. simpl.
  do 2 eexists. split; [reflexivity|]. simpl. repeat split.
  unfold map_values.
  match goal with
  | |- In ?m (map snd (map_set ?k ?m _)) =>
      change m with (snd (k, m)); apply in_map; apply map_set_In
  end.
Qed.

(** ** The chat route, one outcome at a time *)

Section ChatRoute.
Variable Body : Type.
Variable parse : Body -> string + ChatRequest.

Lemma chat_history_run request w :
  match req_conversationId request with
  | Some cid =>
      if Js.truthy cid
      then messages <- getMessagesByConversation cid ;;
           ret (map to_history messages)
      else ret []
  | None => ret []
  end w = (Normal (chat_history request (storage w)), w).
Proof.
  unfold chat_history.
  destruct (req_conversationId request) as [cid|]; [|reflexivity].
  destruct (Js.truthy cid); reflexivity.
Qed.

Lemma chat_try_invalid body issues w :
  parse body = inl issues ->
  chat_try parse body w = (Throw (Js.ThrownError "ZodError" issues), w).
Proof.
  intros Hparse. unfold chat_try.
  erewrite bind_throw; [reflexivity|].
  unfold parse_body. now rewrite Hparse.
Qed.

Lemma chat_try_generation_fails body request e w w1 :
  parse body = inr request ->
  generateChatResponse (req_message request)
    (chat_history request (storage w)) w = (Throw e, w1) ->
  chat_try parse body w = (Throw e, w1).
Proof.
  intros Hparse Hgen. unfold chat_try.
  erewrite bind_normal by (unfold parse_body; rewrite Hparse; reflexivity).
  cbv beta zeta.
  erewrite bind_normal by apply chat_history_run.
  erewrite bind_throw by exact Hgen. reflexivity.
Qed.

End ChatRoute.

Lemma uuid_fresh_2 w :
  uuid_fresh 2 w ->
  let u0 := uuid_src w 0%nat in
  let u1 := uuid_src w 1%nat in
  u0 <> u1 /\
  map_has u0 (messages (storage w)) = false /\
  map_has u1 (messages (storage w)) = false.
Proof.
  unfold uuid_fresh. simpl. intros [Hnd Hall].
  inversion Hnd as [|? ? Hnot0 _]; subst.
  inversion Hall as [|? ? H0 Hall1]; subst.
  inversion Hall1 as [|? ? H1 _]; subst.
  repeat split; try tauto.
  intros Heq. apply Hnot0. now left.
Qed.

Lemma uuid_fresh_3 w :
  uuid_fresh 3 w ->
  let u0 := uuid_src w 0%nat in
  let u1 := uuid_src w 1%nat in
  let u2 := uuid_src w 2%nat in
  Js.truthy u0 = true /\
  map_has u0 (conversations (storage w)) = false /\
  u1 <> u2 /\
  map_has u1 (messages (storage w)) = false /\
  map_has u2 (messages (storage w)) = false.
Proof.
  unfold uuid_fresh. simpl. intros [Hnd Hall].
  inversion Hnd as [|? ? _ Hnd1]; subst.
  inversion Hnd1 as [|? ? Hnot1 _]; subst.
  inversion Hall as [|? ? H0 Hall1]; subst.
  inversion Hall1 as [|? ? H1 Hall2]; subst.
  inversion Hall2 as [|? ? H2 _]; subst.
  repeat split; try tauto.
  intros Heq. apply Hnot1. now left.
Qed.

Section ChatRouteSuccess.
Variable Body : Type.
Variable parse : Body -> string + ChatRequest.

(** A turn that opens a conversation. *)
Lemma chat_try_new body request aiResponse w w1 :
  parse body = inr request ->
  Js.truthy_opt (req_conversationId request) = false ->
  generateChatResponse (req_message request)
    (chat_history request (storage w)) w = (Normal aiResponse, w1) ->
  uuid_fresh 3 w ->
  exists title w2 w',
    generateConversationTitle (req_message request) w1
    = (Normal title, w2) /\
    chat_try parse body w
    = (Normal (res_json (ChatBody aiResponse (uuid_src w 0%nat))), w') /\
    users (storage w') = users (storage w) /\
    conversations (storage w') =
      conversations (storage w)
      ++ [ (uuid_src w 0%nat,
            {| conv_id := uuid_src w 0%nat; title := title;
               createdAt := date_src w 0%nat |}) ] /\
    messages (storage w') =
      messages (storage w)
      ++ [ (uuid_src w 1%nat,
            {| msg_id := uuid_src w 1%nat;
               conversationId := Some (uuid_src w 0%nat);
               role := "user"; content := req_message request;
               timestamp := date_src w 1%nat |});
           (uuid_src w 2%nat,
            {| msg_id := uuid_src w 2%nat;
               conversationId := Some (uuid_src w 0%nat);
               role := "assistant"; content := aiResponse;
               timestamp := date_src w 2%nat |}) ].
Proof.
  intros Hparse Hfalsy Hgen Hfresh.
  apply uuid_fresh_3 in Hfresh. simpl in Hfresh.
  destruct Hfresh as (Ht0 & Hc0 & Hne & Hm1 & Hm2).
  destruct (generateChatResponse_frame _ _ _ Hgen) as (Hs1 & _ & Hu1 & Hd1).
  destruct (generateConversationTitle_outcome (req_message request) w1)
    as (title & w2 & Htitle & Hs2 & _ & Hu2 & Hd2).
  rewrite Hs1 in Hs2. rewrite Hu1 in Hu2. rewrite Hd1 in Hd2.
  set (conversation := {| conv_id := uuid_src w2 0%nat; title := title;
                          createdAt := date_src w2 0%nat |}).
  set (w3 := {| storage :=
                  with_conversations
                    (conversations (storage w2)
                     ++ [(uuid_src w2 0%nat, conversation)]) (storage w2);
                process_env := process_env w2;
                uuid_src := fun n => uuid_src w2 (S n);
                date_src := fun n => date_src w2 (S n);
                ai_src := ai_src w2 |}).
  assert (Hconv : createConversation {| ic_title := title |} w2
                  = (Normal conversation, w3)).
  { apply createConversation_fresh. now rewrite Hs2, Hu2. }
  destruct (@persist_turn (uuid_src w2 0%nat) (req_message request)
              aiResponse w3)
    as (w' & Hrun & Husers & Hconvs & Hmsgs).
  { now rewrite Hu2. }
  { simpl. now rewrite Hs2, Hu2. }
  { simpl. now rewrite Hs2, Hu2. }
  { simpl. now rewrite Hu2. }
  exists title, w2, w'. split; [exact Htitle|].
  split.
  - unfold chat_try.
    erewrite bind_normal
      by (unfold parse_body; rewrite Hparse; reflexivity).
    cbv beta zeta.
    erewrite bind_normal by apply chat_history_run.
    erewrite bind_normal by exact Hgen.
    erewrite bind_normal with (a := uuid_src w2 0%nat) (w' := w3).
    + rewrite <- Hu2. exact Hrun.
    + assert (Hnew :
        (title0 <- generateConversationTitle (req_message request) ;;
         conversation0 <- createConversation {| ic_title := title0 |} ;;
         ret (conv_id conversation0)) w1
        = (Normal (uuid_src w2 0%nat), w3)).
      { erewrite bind_normal by exact Htitle.
        erewrite bind_normal by exact Hconv. reflexivity. }
      destruct (req_conversationId request) as [cid|]; [|exact Hnew].
      simpl in Hfalsy. rewrite Hfalsy. exact Hnew.
  - rewrite Husers, Hconvs, Hmsgs. unfold w3, conversation. simpl.
    rewrite Hs2, Hu2, Hd2. repeat split.
Qed.

(** A turn in a conversation the request names. *)
Lemma chat_try_existing body request cid aiResponse w w1 :
  parse body = inr request ->
  req_conversationId request = Some cid ->
  Js.truthy cid = true ->
  generateChatResponse (req_message request)
    (chat_history request (storage w)) w = (Normal aiResponse, w1) ->
  uuid_fresh 2 w ->
  exists w',
    chat_try parse body w
    = (Normal (res_json (ChatBody aiResponse cid)), w') /\
    users (storage w') = users (storage w) /\
    conversations (storage w') = conversations (storage w) /\
    messages (storage w') =
      messages (storage w)
      ++ [ (uuid_src w 0%nat,
            {| msg_id := uuid_src w 0%nat; conversationId := Some cid;
               role := "user"; content := req_message request;
               timestamp := date_src w 0%nat |});
           (uuid_src w 1%nat,
            {| msg_id := uuid_src w 1%nat; conversationId := Some cid;
               role := "assistant"; content := aiResponse;
               timestamp := date_src w 1%nat |}) ].
Proof.
  intros Hparse Hcid Htruthy Hgen Hfresh.
  apply uuid_fresh_2 in Hfresh. simpl in Hfresh.
  destruct Hfresh as (Hne & Hm0 & Hm1).
  destruct (generateChatResponse_frame _ _ _ Hgen) as (Hs1 & _ & Hu1 & Hd1).
  destruct (@persist_turn cid (req_message request) aiResponse w1)
    as (w' & Hrun & Husers & Hconvs & Hmsgs);
    try (rewrite ?Hs1, ?Hu1; assumption).
  exists w'. split.
  - unfold chat_try.
    erewrite bind_normal
      by (unfold parse_body; rewrite Hparse; reflexivity).
    cbv beta zeta.
    erewrite bind_normal by apply chat_history_run.
    erewrite bind_normal by exact Hgen.
    erewrite bind_normal with (a := cid) (w' := w1).
    + exact Hrun.
    + rewrite Hcid, Htruthy. reflexivity.
  - rewrite Husers, Hconvs, Hmsgs, Hs1, Hu1, Hd1. repeat split.
Qed.

End ChatRouteSuccess.

Lemma uuid_fresh_weaken n w : uuid_fresh (S n) w -> uuid_fresh n w.
Proof.
  unfold uuid_fresh. cbv zeta. rewrite seq_S, map_app.
  intros [Hnd Hall]. split.
  - now apply NoDup_app_remove_r in Hnd.
  - apply Forall_app in Hall. tauto.
Qed.

Lemma sample_world_fresh : uuid_fresh 3 sample_world.
Proof.
  unfold uuid_fresh. simpl. split.
  - repeat constructor; simpl; intuition discriminate.
  - repeat constructor.
Qed.


Lemma sample_world_clock : clock_monotone sample_world.
Proof.
  unfold clock_monotone. split.
  - intros i j Hij. unfold sample_world, date_src. lia.
  - simpl. repeat constructor; simpl; lia.
Qed.

(** ** Every request is answered *)

Section ChatRouteTotal.
Variable Body : Type.
Variable parse : Body -> string + ChatRequest.

Lemma createConversation_run insertConversation w :
  exists c w', createConversation insertConversation w = (Normal c, w').
Proof.
  unfold createConversation, bind, randomUUID, new_Date, get_storage,
    put_storage, ret. simpl. do 2 eexists. reflexivity.
Qed.

(** Once generation has succeeded nothing in the route throws. *)
Lemma chat_try_after_generation body request aiResponse w w1 :
  parse body = inr request ->
  generateChatResponse (req_message request)
    (chat_history request (storage w)) w = (Normal aiResponse, w1) ->
  exists cid w',
    chat_try parse body w = (Normal (res_json (ChatBody aiResponse cid)), w').
Proof.
  intros Hparse Hgen. unfold chat_try.
  erewrite bind_normal by (unfold parse_body; rewrite Hparse; reflexivity).
  cbv beta zeta.
  erewrite bind_normal by apply chat_history_run.
  erewrite bind_normal by exact Hgen.
  assert (Hcid : exists cid w2,
    (let fresh :=
       title <- generateConversationTitle (req_message request) ;;
       conversation <- createConversation {| ic_title := title |} ;;
       ret (conv_id conversation) in
     match req_conversationId request with
     | Some cid => if Js.truthy cid then ret cid else fresh
     | None => fresh
     end) w1 = (Normal cid, w2)).
  { assert (Hfresh : exists cid w2,
      (title <- generateConversationTitle (req_message request) ;;
       conversation <- createConversation {| ic_title := title |} ;;
       ret (conv_id conversation)) w1 = (Normal cid, w2)).
    { destruct (generateConversationTitle_outcome (req_message request) w1)
        as (title & w2 & Htitle & _).
      destruct (createConversation_run {| ic_title := title |} w2)
        as (c & w3 & Hconv).
      exists (conv_id c), w3.
      erewrite bind_normal by exact Htitle.
      erewrite bind_normal by exact Hconv. reflexivity. }
    cbv zeta. destruct (req_conversationId request) as [cid|];
      [|exact Hfresh].
    destruct (Js.truthy cid); [|exact Hfresh].
    exists cid, w1. reflexivity. }
  destruct Hcid as (cid & w2 & Hcid).
  erewrite bind_normal by exact Hcid.
  destruct (createMessage_run
              {| im_conversationId := Some cid; im_role := "user";
                 im_content := req_message request |} w2)
    as (mu & w3 & Hmu & _).
  destruct (createMessage_run
              {| im_conversationId := Some cid; im_role := "assistant";
                 im_content := aiResponse |} w3)
    as (ma & w4 & Hma & _).
  exists cid, w4.
  erewrite bind_normal by exact Hmu.
  erewrite bind_normal by exact Hma. reflexivity.
Qed.

(** The route answers every request, with 200 or with 400: nothing it
    calls throws a value that is not an [Error]. *)
Lemma post_api_chat_answers body w :
  exists response w',
    post_api_chat parse body w = (Normal response, w') /\
    (res_status response = 200 \/ res_status response = 400).
Proof.
  unfold post_api_chat.
  destruct (parse body) as [issues|request] eqn:Hparse.
  - do 2 eexists.
    erewrite try_throw by (apply chat_try_invalid; exact Hparse).
    split; [reflexivity | now right].
  - destruct (generateChatResponse_outcome (req_message request)
                (chat_history request (storage w)) w)
      as (w1 & _ & [(reply & Hgen)|(msg & _ & Hgen)]).
    + destruct (chat_try_after_generation _ Hparse Hgen)
        as (cid & w' & Hrun).
      do 2 eexists. erewrite try_normal by exact Hrun.
      split; [reflexivity | now left].
    + do 2 eexists.
      erewrite try_throw
        by (eapply chat_try_generation_fails; [exact Hparse | exact Hgen]).
      split; [reflexivity | now right].
Qed.

End ChatRouteTotal.

(** ** The store invariant *)

Lemma storage_inv_new : storage_inv MemStorage_new.
Proof. repeat split; constructor. Qed.

Lemma createMessage_inv insertMessage w :
  storage_inv (storage w) -> uuid_fresh 1 w ->
  storage_inv (storage (snd (createMessage insertMessage w))).
Proof.
  intros (Hu & Hc & Hm) [_ Hall]. simpl in Hall.
  inversion Hall as [|? ? (Ht & _ & _ & Hfresh) _]; subst.
  unfold createMessage, bind, randomUUID, new_Date, get_storage,
    put_storage, ret, set_storage. simpl.
  repeat split; try apply Hu; try apply Hc;
    now apply keys_issued_set.
Qed.

Lemma createConversation_inv insertConversation w :
  storage_inv (storage w) -> uuid_fresh 1 w ->
  storage_inv (storage (snd (createConversation insertConversation w))).
Proof.
  intros (Hu & Hc & Hm) [_ Hall]. simpl in Hall.
  inversion Hall as [|? ? (Ht & _ & Hfresh & _) _]; subst.
  unfold createConversation, bind, randomUUID, new_Date, get_storage,
    put_storage, ret, set_storage. simpl.
  repeat split; try apply Hu; try apply Hm;
    now apply keys_issued_set.
Qed.

Lemma createUser_inv insertUser w :
  storage_inv (storage w) -> uuid_fresh 1 w ->
  storage_inv (storage (snd (createUser insertUser w))).
Proof.
  intros (Hu & Hc & Hm) [_ Hall]. simpl in Hall.
  inversion Hall as [|? ? (Ht & Hfresh & _ & _) _]; subst.
  unfold createUser, bind, randomUUID, get_storage,
    put_storage, ret, set_storage. simpl.
  repeat split; try apply Hc; try apply Hm;
    now apply keys_issued_set.
Qed.

Lemma deleteConversation_inv id w :
  storage_inv (storage w) ->
  storage_inv (storage (snd (deleteConversation id w))).
Proof.
  intros (Hu & Hc & Hm). rewrite deleteConversation_run. simpl.
  split; [exact Hu|].
  split; [now apply keys_issued_filter | now apply keys_issued_filter].
Qed.

(** ** Worlds the server can be in *)

Lemma world_ok_fresh n w : world_ok w -> uuid_fresh n w.
Proof.
  intros (_ & Hinj & Hnew & _). unfold uuid_fresh. cbv zeta. split.
  - apply Finite.Injective_map_NoDup; [exact Hinj | apply seq_NoDup].
  - apply Forall_forall. intros id Hin. apply in_map_iff in Hin.
    destruct Hin as (i & <- & _). apply Hnew.
Qed.

Lemma world_ok_clock w : world_ok w -> clock_monotone w.
Proof. now intros (_ & _ & _ & H). Qed.

Lemma world_ok_inv w : world_ok w -> storage_inv (storage w).
Proof. now intros (H & _). Qed.

(** A server that starts with an empty store, ids that never repeat and a
    clock that does not run backwards is in such a world. *)
Lemma world_ok_start env uuids dates provider :
  (forall i j, uuids i = uuids j -> i = j) ->
  (forall i, Js.truthy (uuids i) = true) ->
  (forall i j, (i <= j)%nat -> dates i <= dates j) ->
  world_ok {| storage := MemStorage_new; process_env := env;
              uuid_src := uuids; date_src := dates; ai_src := provider |}.
Proof.
  intros Hinj Htruthy Hmono. split; [apply storage_inv_new|].
  split; [exact Hinj|]. split.
  - intros i. simpl. repeat split. apply Htruthy.
  - split; [exact Hmono | constructor].
Qed.

Lemma world_ok_same w w' :
  same_but_provider w w' -> world_ok w -> world_ok w'.
Proof.
  intros (Hs & _ & Hu & Hd) (Hinv & Hinj & Hnew & Hmono & Hpast).
  unfold world_ok, clock_monotone. rewrite Hs, Hu, Hd. tauto.
Qed.

Lemma preserves_ret {A} (a : A) : preserves (ret a).
Proof. intros w r w' Hok H. injection H as _ <-. exact Hok. Qed.

Lemma preserves_throw {A} e : preserves (@throw A e).
Proof. intros w r w' Hok H. injection H as _ <-. exact Hok. Qed.

Lemma preserves_bind {A B} (c : M A) (k : A -> M B) :
  preserves c -> (forall a, preserves (k a)) -> preserves (bind c k).
Proof.
  intros Hc Hk w r w' Hok H. unfold bind in H.
  destruct (c w) as [[a|e] w1] eqn:Hcw.
  - eapply Hk; [|exact H]. eapply Hc; eassumption.
  - injection H as _ <-. eapply Hc; eassumption.
Qed.

Lemma preserves_try {A} (c : M A) h :
  preserves c -> (forall e, preserves (h e)) -> preserves (try_catch c h).
Proof.
  intros Hc Hh w r w' Hok H. unfold try_catch in H.
  destruct (c w) as [[a|e] w1] eqn:Hcw.
  - injection H as _ <-. eapply Hc; eassumption.
  - eapply Hh; [|exact H]. eapply Hc; eassumption.
Qed.

Lemma preserves_getMessagesByConversation id :
  preserves (getMessagesByConversation id).
Proof.
  intros w r w' Hok H. rewrite getMessagesByConversation_run in H.
  injection H as _ <-. exact Hok.
Qed.

Lemma preserves_getAllConversations : preserves getAllConversations.
Proof.
  intros w r w' Hok H. rewrite getAllConversations_run in H.
  injection H as _ <-. exact Hok.
Qed.

Lemma preserves_generateChatResponse message history :
  preserves (generateChatResponse message history).
Proof.
  intros w r w' Hok H.
  eapply world_ok_same; [|exact Hok].
  eapply generateChatResponse_frame; exact H.
Qed.

Lemma preserves_generateConversationTitle firstMessage :
  preserves (generateConversationTitle firstMessage).
Proof.
  intros w r w' Hok H.
  destruct (generateConversationTitle_outcome firstMessage w)
    as (title & w1 & Hrun & Hfr).
  rewrite Hrun in H. injection H as _ <-.
  eapply world_ok_same; eassumption.
Qed.

(** The keys and the clock after one id and one date have been taken and
    the id has become a key. *)
Lemma world_ok_issue w :
  world_ok w ->
  (forall i j, uuid_src w (S i) = uuid_src w (S j) -> i = j) /\
  (forall i, String.eqb (uuid_src w 0%nat) (uuid_src w (S i)) = false) /\
  (forall i j, (i <= j)%nat -> date_src w (S i) <= date_src w (S j)) /\
  date_src w 0%nat <= date_src w 1%nat.
Proof.
  intros (_ & Hinj & _ & Hmono & _). repeat split.
  - intros i j H. apply Hinj in H. now injection H.
  - intros i. apply String.eqb_neq. intros H. apply Hinj in H.
    discriminate.
  - intros i j Hij. apply Hmono. now apply le_n_S.
  - apply Hmono. apply Nat.le_succ_diag_r.
Qed.

Lemma preserves_createMessage insertMessage :
  preserves (createMessage insertMessage).
Proof.
  intros w r w' Hok H.
  pose proof (world_ok_issue Hok) as (Hinj' & Hne & Hmono' & H01).
  destruct Hok as (Hinv & Hinj & Hnew & Hmono & Hpast).
  destruct (Hnew 0%nat) as (Ht0 & _ & _ & Hm0).
  rewrite createMessage_fresh in H by exact Hm0.
  injection H as _ <-.
  destruct Hinv as (Hu & Hc & Hm).
  split; [|split; [|split]]; simpl.
  - repeat split; try apply Hu; try apply Hc.
    + rewrite <- map_set_fresh by exact Hm0.
      now apply keys_issued_set.
    + rewrite <- map_set_fresh by exact Hm0.
      now apply keys_issued_set.
  - exact Hinj'.
  - intros i. destruct (Hnew (S i)) as (Ht & Hus & Hcs & Hms).
    repeat split; try assumption.
    rewrite map_has_app, Hms. simpl. now rewrite Hne.
  - split; [exact Hmono'|]. simpl. unfold map_values.
    rewrite map_app, Forall_app. split.
    + eapply Forall_impl; [|exact Hpast]. simpl. intros; lia.
    + repeat constructor. simpl. exact H01.
Qed.

Lemma preserves_createConversation insertConversation :
  preserves (createConversation insertConversation).
Proof.
  intros w r w' Hok H.
  pose proof (world_ok_issue Hok) as (Hinj' & Hne & Hmono' & H01).
  destruct Hok as (Hinv & Hinj & Hnew & Hmono & Hpast).
  destruct (Hnew 0%nat) as (Ht0 & _ & Hc0 & _).
  rewrite createConversation_fresh in H by exact Hc0.
  injection H as _ <-.
  destruct Hinv as (Hu & Hc & Hm).
  split; [|split; [|split]]; simpl.
  - repeat split; try apply Hu; try apply Hm.
    + rewrite <- map_set_fresh by exact Hc0.
      now apply keys_issued_set.
    + rewrite <- map_set_fresh by exact Hc0.
      now apply keys_issued_set.
  - exact Hinj'.
  - intros i. destruct (Hnew (S i)) as (Ht & Hus & Hcs & Hms).
    repeat split; try assumption.
    rewrite map_has_app, Hcs. simpl. now rewrite Hne.
  - split; [exact Hmono'|]. simpl.
    eapply Forall_impl; [|exact Hpast]. simpl. intros; lia.
Qed.

Lemma map_has_filter {V} (f : string * V -> bool) k (m : JsMap V) :
  map_has k m = false -> map_has k (filter f m) = false.
Proof.
  rewrite !map_has_false. unfold map_keys. intros Hnot Hin. apply Hnot.
  apply in_map_iff in Hin. destruct Hin as (e & <- & Hin).
  apply filter_In in Hin. apply in_map. tauto.
Qed.

Lemma preserves_deleteConversation id : preserves (deleteConversation id).
Proof.
  intros w r w' Hok H.
  pose proof (@deleteConversation_inv id w (world_ok_inv Hok)) as Hinv'.
  rewrite deleteConversation_run in *. injection H as _ <-.
  destruct Hok as (Hinv & Hinj & Hnew & Hmono & Hpast).
  split; [exact Hinv'|]. split; [exact Hinj|]. split; simpl.
  - intros i. destruct (Hnew i) as (Ht & Hus & Hcs & Hms).
    repeat split; try assumption.
    + unfold map_delete. now apply map_has_filter.
    + now apply map_has_filter.
  - split; [exact Hmono|]. simpl. unfold map_values.
    rewrite Forall_forall in *. intros m Hin. apply Hpast.
    apply in_map_iff in Hin. destruct Hin as (e & <- & Hin).
    apply filter_In in Hin. apply in_map. tauto.
Qed.

(** Every route keeps the server in such a world. *)
Lemma preserves_post_api_chat (Body : Type)
    (parse : Body -> string + ChatRequest) (body : Body) :
  preserves (post_api_chat parse body).
Proof.
  unfold post_api_chat. apply preserves_try;
    [|intros e; apply preserves_ret].
  unfold chat_try. apply preserves_bind.
  { unfold parse_body. destruct (parse body);
      [apply preserves_throw | apply preserves_ret]. }
  intros request. cbv zeta. apply preserves_bind.
  { destruct (req_conversationId request) as [cid|];
      [|apply preserves_ret].
    destruct (Js.truthy cid); [|apply preserves_ret].
    apply preserves_bind; [apply preserves_getMessagesByConversation|].
    intros; apply preserves_ret. }
  intros history. apply preserves_bind;
    [apply preserves_generateChatResponse|].
  intros aiResponse. apply preserves_bind.
  { assert (Hnew : preserves
              (title <- generateConversationTitle (req_message request) ;;
               conversation <- createConversation {| ic_title := title |} ;;
               ret (conv_id conversation))).
    { apply preserves_bind; [apply preserves_generateConversationTitle|].
      intros title. apply preserves_bind;
        [apply preserves_createConversation|].
      intros; apply preserves_ret. }
    destruct (req_conversationId request) as [cid|]; [|exact Hnew].
    destruct (Js.truthy cid); [apply preserves_ret | exact Hnew]. }
  intros cid. apply preserves_bind; [apply preserves_createMessage|].
  intros _. apply preserves_bind; [apply preserves_createMessage|].
  intros _. apply preserves_ret.
Qed.

Lemma preserves_delete_api_conversation id :
  preserves (delete_api_conversation id).
Proof.
  unfold delete_api_conversation. apply preserves_try;
    [|intros e; apply preserves_ret].
  apply preserves_bind; [apply preserves_deleteConversation|].
  intros; apply preserves_ret.
Qed.

(** ** More on maps, strings and sorting *)

Lemma map_get_set_same {V} k (v : V) m : map_get k (map_set k v m) = Some v.
Proof.
  induction m as [|[k' v'] m IH]; simpl.
  - now rewrite String.eqb_refl.
  - destruct (String.eqb k' k) eqn:Hk; simpl.
    + now rewrite String.eqb_refl.
    + now rewrite Hk.
Qed.

Lemma map_get_set_other {V} k k' (v : V) m :
  k' <> k -> map_get k' (map_set k v m) = map_get k' m.
Proof.
  intros Hne.
  assert (Hk : String.eqb k k' = false)
    by (apply String.eqb_neq; congruence).
  induction m as [|[k0 v0] m IH]; simpl.
  - now rewrite Hk.
  - destruct (String.eqb_spec k0 k) as [->|Hk0]; simpl.
    + now rewrite Hk.
    + destruct (String.eqb k0 k'); [reflexivity | exact IH].
Qed.

(** What [Array.prototype.find] returns. *)
Lemma find_first {A} (f : A -> bool) (l : list A) :
  match find f l with
  | Some x =>
      exists before after,
        l = before ++ x :: after /\ f x = true /\
        Forall (fun y => f y = false) before
  | None => Forall (fun y => f y = false) l
  end.
Proof.
  induction l as [|a l IH]; simpl; [constructor|].
  destruct (f a) eqn:Hfa.
  - exists [], l. repeat split; [exact Hfa | constructor].
  - destruct (find f l) as [x|].
    + destruct IH as (before & after & -> & Hfx & Hall).
      exists (a :: before), after. repeat split; [exact Hfx|].
      now constructor.
    + now constructor.
Qed.

Lemma find_app {A} (f : A -> bool) (l1 l2 : list A) :
  find f (l1 ++ l2) =
  match find f l1 with
  | Some x => Some x
  | None => find f l2
  end.
Proof.
  induction l1 as [|a l1 IH]; simpl; [reflexivity|].
  destruct (f a); [reflexivity | exact IH].
Qed.

Section ArraySortMore.
Variable A : Type.
Variable compareFn : A -> A -> Z.
Variable key : A -> Z.
Hypothesis compare_key : forall a b, compareFn a b = key a - key b.

Lemma ordered_by_filter (f : A -> bool) l :
  ordered_by key l -> ordered_by key (filter f l).
Proof.
  unfold ordered_by. induction 1 as [|a l Hs IH Hf]; simpl; [constructor|].
  destruct (f a); [|exact IH]. constructor; [exact IH|].
  rewrite Forall_forall in *. intros y Hy. apply Hf.
  now apply filter_In in Hy.
Qed.

Lemma with_key_filter (f : A -> bool) k l :
  with_key key k (filter f l) = filter f (with_key key k l).
Proof.
  unfold with_key. induction l as [|a l IH]; simpl; [reflexivity|].
  destruct (f a) eqn:Hfa, (key a =? k) eqn:Hka; simpl;
    rewrite ?Hfa, ?Hka, IH; reflexivity.
Qed.

(** Sorting and filtering commute. *)
Lemma array_sort_filter (f : A -> bool) l :
  array_sort compareFn (filter f l) = filter f (array_sort compareFn l).
Proof.
  symmetry. apply (ordered_with_key_unique (key := key)).
  - apply ordered_by_filter. now apply array_sort_ordered.
  - now apply array_sort_ordered.
  - intros k. rewrite with_key_filter.
    rewrite !(array_sort_with_key compareFn key compare_key).
    now rewrite with_key_filter.
Qed.


(** An element of a key below all others, added last, comes first. *)
Lemma array_sort_app_head l x :
  (forall y, In y l -> key x < key y) ->
  array_sort compareFn (l ++ [x]) = x :: array_sort compareFn l.
Proof.
  intros Hlt. symmetry. apply (ordered_with_key_unique (key := key)).
  - constructor; [now apply array_sort_ordered|].
    apply Forall_forall. intros y Hy.
    rewrite (array_sort_In compareFn) in Hy. specialize (Hlt y Hy). lia.
  - now apply array_sort_ordered.
  - intros k. rewrite (array_sort_with_key compareFn key compare_key).
    unfold with_key at 2. rewrite filter_app. simpl.
    change (filter (fun a => key a =? k) l) with (with_key key k l).
    unfold with_key at 1. simpl.
    change (filter (fun a => key a =? k) (array_sort compareFn l))
      with (with_key key k (array_sort compareFn l)).
    rewrite (array_sort_with_key compareFn key compare_key).
    destruct (Z.eqb_spec (key x) k) as [Hk|Hk]; [|now rewrite app_nil_r].
    assert (Hnone : with_key key k l = []).
    { apply filter_none. intros y Hy. specialize (Hlt y Hy).
      apply Z.eqb_neq. lia. }
    now rewrite Hnone.
Qed.

End ArraySortMore.

Lemma filter_filter_comm {A} (f g : A -> bool) (l : list A) :
  filter f (filter g l) = filter g (filter f l).
Proof.
  induction l as [|a l IH]; simpl; [reflexivity|].
  destruct (f a) eqn:Hf, (g a) eqn:Hg; simpl; rewrite ?Hf, ?Hg, ?IH;
    reflexivity.
Qed.

Lemma filter_all {A} (f : A -> bool) (l : list A) :
  (forall x, In x l -> f x = true) -> filter f l = l.
Proof.
  induction l as [|a l IH]; simpl; intros H; [reflexivity|].
  rewrite (H a) by now left. f_equal. apply IH. intros; apply H; now right.
Qed.

Lemma map_filter_snd {V} (f : string * V -> bool) (g : V -> bool)
    (m : JsMap V) :
  (forall e, In e m -> f e = g (snd e)) ->
  map snd (filter f m) = filter g (map snd m).
Proof.
  induction m as [|e m IH]; simpl; intros H; [reflexivity|].
  rewrite (H e) by now left.
  destruct (g (snd e)); simpl; rewrite IH; auto.
Qed.

(** The messages of a conversation other than the deleted one are the
    same, when keys are pairwise distinct. *)
Lemma deleteConversation_other_under id other w :
  NoDup (map_keys (messages (storage w))) ->
  other <> id ->
  messages_under other (storage (snd (deleteConversation id w))) =
  messages_under other (storage w).
Proof.
  intros Hnd Hne. unfold messages_under, map_values.
  rewrite deleteConversation_keeps_others by exact Hnd.
  rewrite (map_filter_snd _
             (fun m => negb (Js.strict_eq (conversationId m) id)))
    by reflexivity.
  rewrite filter_filter_comm. apply filter_all.
  intros m Hin. apply filter_In in Hin. destruct Hin as [_ Hother].
  apply strict_eq_true in Hother. apply negb_true_iff.
  apply not_true_is_false. intros Hid. apply strict_eq_true in Hid.
  congruence.
Qed.

Lemma keyed_by_id_new : keyed_by_id MemStorage_new.
Proof. constructor. Qed.

Lemma map_set_Forall {V} (P : string * V -> Prop) k (v : V) m :
  Forall P m -> P (k, v) -> Forall P (map_set k v m).
Proof.
  intros Hm Hkv. induction m as [|[k' v'] m IH]; simpl.
  - now repeat constructor.
  - inversion Hm; subst. destruct (String.eqb k' k); constructor; auto.
Qed.

Lemma createConversation_keyed insertConversation w :
  keyed_by_id (storage w) ->
  keyed_by_id (storage (snd (createConversation insertConversation w))).
Proof.
  intros H. unfold createConversation, bind, randomUUID, new_Date,
    get_storage, put_storage, ret, set_storage. simpl.
  now apply map_set_Forall.
Qed.

Lemma deleteConversation_keyed id w :
  keyed_by_id (storage w) ->
  keyed_by_id (storage (snd (deleteConversation id w))).
Proof.
  intros H. rewrite deleteConversation_run. simpl.
  unfold keyed_by_id, map_delete in *. simpl.
  rewrite Forall_forall in *. intros e He. apply H.
  now apply filter_In in He.
Qed.

(** With no conversation and no message to remove, [deleteConversation]
    leaves the store as it is. *)
Lemma deleteConversation_nothing id w :
  map_has id (conversations (storage w)) = false ->
  messages_under id (storage w) = [] ->
  storage (snd (deleteConversation id w)) = storage w.
Proof.
  intros Hconv Hmsgs. rewrite deleteConversation_run. simpl.
  rewrite map_delete_absent by exact Hconv.
  assert (Hnone : filter
            (fun e => Js.strict_eq (conversationId (snd e)) id)
            (messages (storage w)) = []).
  { unfold messages_under, map_values in Hmsgs.
    rewrite <- (map_filter_snd
                  (fun e => Js.strict_eq (conversationId (snd e)) id))
      in Hmsgs by reflexivity.
    now apply map_eq_nil in Hmsgs. }
  rewrite Hnone. simpl. rewrite filter_all by reflexivity.
  now destruct (storage w).
Qed.

Lemma deleteConversation_under_deleted id w :
  messages_under id (storage (snd (deleteConversation id w))) = [].
Proof.
  unfold messages_under. apply filter_none. intros m Hin.
  apply in_map_iff in Hin. destruct Hin as (e & <- & He).
  now apply (deleteConversation_survivor id w).
Qed.

Lemma fallback_reply_truthy : Js.truthy fallback_reply = true.
Proof. reflexivity. Qed.

Lemma or_else_truthy text d :
  Js.truthy d = true -> Js.truthy (Js.or_else text d) = true.
Proof.
  intros Hd. destruct text as [s|]; simpl; [|exact Hd].
  destruct (Js.truthy s) eqn:Hs; [exact Hs | exact Hd].
Qed.

(** [includes] is containment as a substring. *)
Lemma prefix_iff (n h : string) :
  String.prefix n h = true <-> exists b, h = (n ++ b)%string.
Proof.
  revert h. induction n as [|c n IH]; intros h.
  - split; [intros _; now exists h | intros _; now destruct h].
  - destruct h as [|d h]; simpl.
    + split; [discriminate | intros (b & Hb); discriminate Hb].
    + destruct (Ascii.ascii_dec c d) as [->|Hne].
      * rewrite IH. split; intros (b & Hb); exists b; congruence.
      * split; [discriminate | intros (b & Hb); congruence].
Qed.

Lemma includes_nil (n : string) :
  Js.includes n EmptyString = (String.prefix n EmptyString || false)%bool.
Proof. reflexivity. Qed.

Lemma includes_cons (n : string) c (h : string) :
  Js.includes n (String c h) =
  (String.prefix n (String c h) || Js.includes n h)%bool.
Proof. reflexivity. Qed.

Lemma includes_iff (n h : string) :
  Js.includes n h = true <->
  exists a b, h = (a ++ n ++ b)%string.
Proof.
  split.
  - induction h as [|c h IH].
    + rewrite includes_nil, orb_true_iff. intros [H|H]; [|discriminate].
      apply prefix_iff in H. destruct H as (b & Hb).
      now exists EmptyString, b.
    + rewrite includes_cons, orb_true_iff. intros [H|H].
      * apply prefix_iff in H. destruct H as (b & Hb).
        now exists EmptyString, b.
      * destruct (IH H) as (a & b & ->). now exists (String c a), b.
  - intros (a & b & ->). induction a as [|c a IH].
    + change (EmptyString ++ n ++ b)%string with (n ++ b)%string.
      assert (Hp : String.prefix n (n ++ b) = true)
        by (apply prefix_iff; now exists b).
      destruct (n ++ b)%string;
        [rewrite includes_nil | rewrite includes_cons];
        now rewrite Hp.
    + change (String c a ++ n ++ b)%string
        with (String c (a ++ n ++ b))%string.
      rewrite includes_cons, IH. apply orb_true_r.
Qed.

(** ** Substrings, quotes and trimming *)

Lemma substring0_length n (s : string) :
  String.length (Js.substring0 n s) = Nat.min n (String.length s).
Proof.
  unfold Js.substring0. revert s.
  induction n as [|n IH]; intros [|c s]; simpl; try reflexivity.
  now rewrite IH.
Qed.

Lemma substring0_prefix n (s : string) :
  exists rest, s = (Js.substring0 n s ++ rest)%string.
Proof.
  unfold Js.substring0. revert s.
  induction n as [|n IH]; intros [|c s]; simpl.
  - now exists EmptyString.
  - now exists (String c s).
  - now exists EmptyString.
  - destruct (IH s) as (rest & Hrest). exists rest. now rewrite <- Hrest.
Qed.

Lemma string_app_length (a b : string) :
  String.length (a ++ b)%string = (String.length a + String.length b)%nat.
Proof. induction a as [|c a IH]; simpl; [reflexivity | now rewrite IH]. Qed.

Lemma string_app_nil_r (a : string) : (a ++ EmptyString)%string = a.
Proof. induction a as [|c a IH]; simpl; [reflexivity | now rewrite IH]. Qed.

Lemma substring0_truthy n (s : string) :
  Js.truthy s = true -> Js.truthy (Js.substring0 (S n) s) = true.
Proof. destruct s; [discriminate | reflexivity]. Qed.

Lemma strip_quotes_length (s : string) :
  (String.length (Js.strip_quotes s) <= String.length s)%nat.
Proof.
  induction s as [|c s IH]; simpl; [lia|].
  destruct (Ascii.eqb c Js.squote || Ascii.eqb c Js.dquote)%bool; simpl; lia.
Qed.

Lemma strip_quotes_no_quote (s : string) : no_quote (Js.strip_quotes s).
Proof.
  unfold no_quote. induction s as [|c s IH]; simpl; [constructor|].
  destruct (Ascii.eqb c Js.squote || Ascii.eqb c Js.dquote)%bool eqn:Hq;
    [exact IH|].
  simpl. constructor; [|exact IH].
  apply orb_false_iff in Hq. destruct Hq as [H1 H2].
  split; now apply Ascii.eqb_neq.
Qed.

Lemma trim_start_length (s : string) :
  (String.length (Js.trim_start s) <= String.length s)%nat.
Proof.
  induction s as [|c s IH]; simpl; [lia|].
  destruct (Js.is_space c); simpl; lia.
Qed.

Lemma trim_start_chars (P : ascii -> Prop) (s : string) :
  Forall P (list_ascii_of_string s) ->
  Forall P (list_ascii_of_string (Js.trim_start s)).
Proof.
  induction s as [|c s IH]; simpl; intros H; [exact H|].
  inversion H; subst. destruct (Js.is_space c); [now apply IH | exact H].
Qed.

Lemma trim_start_head (s : string) :
  starts_with_space (Js.trim_start s) = false.
Proof.
  induction s as [|c s IH]; simpl; [reflexivity|].
  destruct (Js.is_space c) eqn:Hc; [exact IH | simpl; exact Hc].
Qed.

Lemma all_space_cons c (s : string) :
  Js.all_space (String c s) = (Js.is_space c && Js.all_space s)%bool.
Proof.
  unfold Js.all_space. simpl. destruct (Js.is_space c); reflexivity.
Qed.

Lemma trim_end_cons c (s : string) :
  Js.trim_end (String c s) =
  if Js.all_space (String c s) then EmptyString
  else String c (Js.trim_end s).
Proof. reflexivity. Qed.

Lemma trim_end_empty (s : string) :
  Js.trim_end s = EmptyString -> Js.all_space s = true.
Proof.
  destruct s as [|c s]; [reflexivity|]. rewrite trim_end_cons.
  destruct (Js.all_space (String c s)); [reflexivity | discriminate].
Qed.

Lemma trim_end_length (s : string) :
  (String.length (Js.trim_end s) <= String.length s)%nat.
Proof.
  induction s as [|c s IH]; [simpl; lia|]. rewrite trim_end_cons.
  destruct (Js.all_space (String c s)); simpl; lia.
Qed.

Lemma trim_end_chars (P : ascii -> Prop) (s : string) :
  Forall P (list_ascii_of_string s) ->
  Forall P (list_ascii_of_string (Js.trim_end s)).
Proof.
  induction s as [|c s IH]; intros H; [exact H|]. rewrite trim_end_cons.
  simpl in H. inversion H; subst.
  destruct (Js.all_space (String c s)); simpl; [constructor|].
  constructor; [assumption | now apply IH].
Qed.

Lemma trim_end_last (s : string) : ends_with_space (Js.trim_end s) = false.
Proof.
  induction s as [|c s IH]; [reflexivity|]. rewrite trim_end_cons.
  destruct (Js.all_space (String c s)) eqn:Hall; [reflexivity|].
  destruct (Js.trim_end s) as [|d t] eqn:Ht.
  - apply trim_end_empty in Ht. rewrite all_space_cons, Ht in Hall.
    simpl. now rewrite andb_true_r in Hall.
  - exact IH.
Qed.

Lemma trim_end_head (s : string) :
  starts_with_space s = false ->
  starts_with_space (Js.trim_end s) = false.
Proof.
  destruct s as [|c s]; [reflexivity|].
  intros Hc. simpl in Hc.
  rewrite trim_end_cons, all_space_cons, Hc. simpl. exact Hc.
Qed.

Lemma trim_all_space (s : string) :
  Js.all_space s = true -> Js.trim s = EmptyString.
Proof.
  unfold Js.trim, Js.all_space.
  destruct (Js.trim_start s); [reflexivity | discriminate].
Qed.

(** What [title.replace(...).trim()] makes of any string. *)
Lemma cleaned_title_shape (s : string) :
  (String.length (Js.trim (Js.strip_quotes s)) <= String.length s)%nat /\
  no_quote (Js.trim (Js.strip_quotes s)) /\
  starts_with_space (Js.trim (Js.strip_quotes s)) = false /\
  ends_with_space (Js.trim (Js.strip_quotes s)) = false.
Proof.
  unfold Js.trim. repeat split.
  - pose proof (strip_quotes_length s).
    pose proof (trim_start_length (Js.strip_quotes s)).
    pose proof (trim_end_length (Js.trim_start (Js.strip_quotes s))).
    lia.
  - apply trim_end_chars, trim_start_chars, strip_quotes_no_quote.
  - apply trim_end_head, trim_start_head.
  - apply trim_end_last.
Qed.

(** ** Messages added at the end of the map *)

Lemma messages_under_app id st (added : JsMap Message) :
  messages_under id (with_messages (messages st ++ added) st) =
  messages_under id st
  ++ filter (fun m => Js.strict_eq (conversationId m) id) (map snd added).
Proof.
  unfold messages_under, map_values. simpl.
  now rewrite map_app, filter_app.
Qed.

Lemma messages_under_eq id st st' :
  messages st' = messages st ->
  messages_under id st' = messages_under id st.
Proof. unfold messages_under. now intros ->. Qed.

Lemma messages_under_appended id cid st st' (u a : Message) ku ka :
  messages st' = messages st ++ [(ku, u); (ka, a)] ->
  conversationId u = Some cid -> conversationId a = Some cid ->
  messages_under id st' =
  messages_under id st ++ (if String.eqb cid id then [u; a] else []).
Proof.
  intros Hmsgs Hu Ha. unfold messages_under, map_values.
  rewrite Hmsgs, map_app, filter_app. simpl. rewrite Hu, Ha. simpl.
  now destruct (String.eqb cid id).
Qed.

(** ** Transcripts *)

Lemma paired_app l (u a : Message) :
  paired l -> role u = "user" -> role a = "assistant" ->
  paired (l ++ [u; a]).
Proof.
  intros Hl Hu Ha. induction Hl as [|u' a' l Hu' Ha' Hl IH]; simpl.
  - now repeat constructor.
  - now constructor.
Qed.

Lemma ordered_by_map_filter {V} (key : V -> Z) (f : string * V -> bool)
    (m : JsMap V) :
  ordered_by key (map snd m) -> ordered_by key (map snd (filter f m)).
Proof.
  unfold ordered_by. induction m as [|e m IH]; simpl; intros H;
    [constructor|].
  inversion H as [|? ? Hs Hf]; subst.
  destruct (f e); simpl; [|now apply IH].
  constructor; [now apply IH|].
  rewrite Forall_forall in *. intros y Hy. apply Hf.
  apply in_map_iff in Hy. destruct Hy as (e' & <- & He').
  apply in_map. now apply filter_In in He'.
Qed.

Lemma tally_length n : String.length (tally n) = S n.
Proof. induction n as [|n IH]; simpl; [reflexivity | now rewrite IH]. Qed.

Lemma tally_injective i j : tally i = tally j -> i = j.
Proof.
  intros H. apply (f_equal String.length) in H.
  rewrite !tally_length in H. now injection H.
Qed.

Lemma tally_truthy i : Js.truthy (tally i) = true.
Proof. destruct i; reflexivity. Qed.

Lemma transcript_ok_same w w' :
  same_but_provider w w' -> transcript_ok w -> transcript_ok w'.
Proof.
  intros Hsame (Hok & Hord & Hpairs).
  pose proof (world_ok_same Hsame Hok) as Hok'.
  destruct Hsame as (Hs & _). unfold transcript_ok. rewrite Hs.
  split; [exact Hok'|]. split; assumption.
Qed.

Lemma transcript_ok_start :
  forall env uuids dates provider,
  (forall i j, uuids i = uuids j -> i = j) ->
  (forall i, Js.truthy (uuids i) = true) ->
  (forall i j, (i <= j)%nat -> dates i <= dates j) ->
  transcript_ok {| storage := MemStorage_new; process_env := env;
                   uuid_src := uuids; date_src := dates;
                   ai_src := provider |}.
Proof.
  intros env uuids dates provider Hinj Htruthy Hmono.
  split; [now apply world_ok_start|]. split; simpl; constructor.
Qed.

(** One exchange added at the end of the map keeps the transcripts. *)
Lemma transcript_ok_appended w w' cid (u a : Message) ku ka i :
  transcript_ok w -> world_ok w' ->
  messages (storage w') = messages (storage w) ++ [(ku, u); (ka, a)] ->
  conversationId u = Some cid -> conversationId a = Some cid ->
  role u = "user" -> role a = "assistant" ->
  timestamp u = date_src w i -> timestamp a = date_src w (S i) ->
  transcript_ok w'.
Proof.
  intros (Hok & Hord & Hpairs) Hok' Hmsgs Hcu Hca Hru Hra Htu Hta.
  destruct Hok as (_ & _ & _ & Hmono & Hpast).
  split; [exact Hok'|]. split.
  - unfold map_values in *. rewrite Hmsgs, map_app. simpl.
    apply ordered_by_app; [exact Hord| |].
    + unfold ordered_by. repeat constructor. rewrite Htu, Hta.
      apply Hmono. apply Nat.le_succ_diag_r.
    + intros x y Hx Hy. rewrite Forall_forall in Hpast.
      specialize (Hpast x Hx).
      pose proof (Hmono 0%nat i (Nat.le_0_l i)) as H0i.
      pose proof (Hmono i (S i) (Nat.le_succ_diag_r i)) as Hii.
      destruct Hy as [<-|[<-|[]]]; lia.
  - intros id.
    rewrite (@messages_under_appended id cid (storage w) (storage w')
               u a ku ka Hmsgs Hcu Hca).
    destruct (String.eqb cid id).
    + now apply paired_app.
    + rewrite app_nil_r. apply Hpairs.
Qed.

Lemma keeps_post_api_chat (Body : Type)
    (parse : Body -> string + ChatRequest) (body : Body) :
  keeps_transcripts (post_api_chat parse body).
Proof.
  intros w r w' Htr Hpost.
  pose proof Htr as (Hok & _).
  pose proof (preserves_post_api_chat parse body Hok Hpost) as Hok'.
  unfold post_api_chat in Hpost.
  destruct (parse body) as [issues|request] eqn:Hparse.
  { erewrite try_throw in Hpost
      by (apply chat_try_invalid; exact Hparse).
    injection Hpost as _ <-. exact Htr. }
  destruct (generateChatResponse_outcome (req_message request)
              (chat_history request (storage w)) w)
    as (w1 & Hfr & [(reply & Hgen)|(msg & _ & Hgen)]).
  2:{ erewrite try_throw in Hpost
        by (eapply chat_try_generation_fails; [exact Hparse | exact Hgen]).
      injection Hpost as _ <-. now apply (transcript_ok_same Hfr). }
  destruct (Js.truthy_opt (req_conversationId request)) eqn:Htruthy.
  - destruct (req_conversationId request) as [cid|] eqn:Hcid;
      [|discriminate Htruthy].
    simpl in Htruthy.
    destruct (@chat_try_existing Body parse body request cid reply w w1
                Hparse Hcid Htruthy Hgen (world_ok_fresh 2 Hok))
      as (w2 & Hrun & _ & _ & Hmsgs).
    erewrite try_normal in Hpost by exact Hrun.
    injection Hpost as _ <-.
    now apply (@transcript_ok_appended w w2 cid _ _ _ _ 0%nat Htr Hok'
                 Hmsgs).
  - destruct (@chat_try_new Body parse body request reply w w1
                Hparse Htruthy Hgen (world_ok_fresh 3 Hok))
      as (title & w2 & w3 & _ & Hrun & _ & _ & Hmsgs).
    erewrite try_normal in Hpost by exact Hrun.
    injection Hpost as _ <-.
    now apply (@transcript_ok_appended w w3 (uuid_src w 0%nat) _ _ _ _
                 1%nat Htr Hok' Hmsgs).
Qed.

Lemma keeps_delete_api_conversation id :
  keeps_transcripts (delete_api_conversation id).
Proof.
  intros w r w' Htr Hdel.
  pose proof Htr as (Hok & Hord & Hpairs).
  pose proof (@preserves_delete_api_conversation id _ _ _ Hok Hdel)
    as Hok'.
  assert (Hw' : w' = snd (deleteConversation id w)).
  { unfold delete_api_conversation in Hdel.
    erewrite try_normal in Hdel
      by (erewrite bind_normal
            by (rewrite deleteConversation_run; reflexivity);
          reflexivity).
    injection Hdel as _ <-. now rewrite deleteConversation_run. }
  subst w'. split; [exact Hok'|]. split.
  - rewrite deleteConversation_run. simpl. unfold map_values.
    now apply ordered_by_map_filter.
  - intros other. destruct (String.eqb_spec other id) as [->|Hne].
    + rewrite deleteConversation_under_deleted. constructor.
    + rewrite deleteConversation_other_under; [apply Hpairs | | exact Hne].
      destruct Hok as ((_ & _ & Hm & _) & _). exact Hm.
Qed.

Lemma keeps_get_api_conversation_messages id :
  keeps_transcripts (get_api_conversation_messages id).
Proof.
  intros w r w' Htr H. unfold get_api_conversation_messages in H.
  erewrite try_normal in H
    by (erewrite bind_normal by apply getMessagesByConversation_run;
        reflexivity).
  injection H as _ <-. exact Htr.
Qed.

Lemma keeps_get_api_conversations : keeps_transcripts get_api_conversations.
Proof.
  intros w r w' Htr H. unfold get_api_conversations in H.
  erewrite try_normal in H
    by (erewrite bind_normal by apply getAllConversations_run;
        reflexivity).
  injection H as _ <-. exact Htr.
Qed.




(** ** What the [try] block of the chat route can throw *)

Lemma generation_error_classified msg :
  In msg generation_errors ->
  is_generation_failure (Js.new_Error msg) = true.
Proof.
  intros Hin. unfold is_generation_failure, Js.new_Error.
  apply andb_true_iff. split; [reflexivity|].
  apply existsb_exists. exists msg.
  split; [exact Hin | apply String.eqb_refl].
Qed.

Lemma chat_try_throws (Body : Type) (parse : Body -> string + ChatRequest)
    (body : Body) (w w1 : World) (e : Js.Thrown) :
  chat_try parse body w = (Throw e, w1) ->
  (exists issues,
     parse body = inl issues /\
     e = Js.ThrownError "ZodError" issues /\ w1 = w) \/
  (exists request msg,
     parse body = inr request /\
     In msg generation_errors /\
     e = Js.new_Error msg /\
     generateChatResponse (req_message request)
       (chat_history request (storage w)) w = (Throw e, w1)).
Proof.
  intros Hthrow.
  destruct (parse body) as [issues|request] eqn:Hparse.
  - left. exists issues.
    rewrite (@chat_try_invalid Body parse body issues w Hparse) in Hthrow.
    injection Hthrow as <- <-. now repeat split.
  - right.
    destruct (generateChatResponse_outcome (req_message request)
                (chat_history request (storage w)) w)
      as (w2 & _ & [(reply & Hgen)|(msg & Hin & Hgen)]).
    + destruct (chat_try_after_generation parse body _ Hparse Hgen)
        as (cid & w3 & Hrun).
      rewrite Hrun in Hthrow. discriminate Hthrow.
    + rewrite (@chat_try_generation_fails Body parse body request _ w _
                 Hparse Hgen) in Hthrow.
      injection Hthrow as <- <-.
      exists request, msg. now repeat split.
Qed.

(** Without a message of the conversation to remove, the message map is
    left as it is. *)
Lemma deleteConversation_no_messages id w :
  messages_under id (storage w) = [] ->
  messages (storage (snd (deleteConversation id w))) = messages (storage w).
Proof.
  intros Hmsgs. rewrite deleteConversation_run. simpl.
  assert (Hnone : filter
            (fun e => Js.strict_eq (conversationId (snd e)) id)
            (messages (storage w)) = []).
  { unfold messages_under, map_values in Hmsgs.
    rewrite <- (map_filter_snd
                  (fun e => Js.strict_eq (conversationId (snd e)) id))
      in Hmsgs by reflexivity.
    now apply map_eq_nil in Hmsgs. }
  rewrite Hnone. simpl. now rewrite filter_all by reflexivity.
Qed.

(** An entry stays exactly when no message of the conversation has its
    key. *)
Lemma deleteConversation_stays id w e :
  In e (messages (storage (snd (deleteConversation id w)))) <->
  In e (messages (storage w)) /\
  forall e', In e' (messages (storage w)) ->
             conversationId (snd e') = Some id -> fst e' <> fst e.
Proof.
  rewrite deleteConversation_run. simpl. rewrite filter_In.
  split; intros [Hin H]; (split; [exact Hin|]).
  - intros e' He' Hid Hkey. apply negb_true_iff in H.
    assert (Hex : existsb (String.eqb (fst e))
              (map fst
                 (filter
                    (fun e0 => Js.strict_eq (conversationId (snd e0)) id)
                    (messages (storage w)))) = true); [|congruence].
    apply existsb_exists. exists (fst e').
    split; [|rewrite Hkey; apply String.eqb_refl].
    apply in_map. apply filter_In. split; [exact He'|].
    now apply strict_eq_true.
  - apply negb_true_iff. apply not_true_is_false. intros Hex.
    apply existsb_exists in Hex. destruct Hex as (k & Hk & Heq).
    apply String.eqb_eq in Heq. subst k.
    apply in_map_iff in Hk. destruct Hk as (e' & Hkey & He').
    apply filter_In in He'. destruct He' as [He' Hid].
    apply strict_eq_true in Hid. exact (H e' He' Hid Hkey).
Qed.

(* ================================================================= *)
(** * Part III. The properties of the specification *)
(* ================================================================= *)

(** C1. A valid request with a message and no conversationId whose
    [generateChatResponse] call succeeds makes [POST /api/chat] add one
    conversation, under a new id, then the user message and then the
    assistant message, both under that id, and nothing else; the answer is
    200 with the assistant text and the id of the new conversation.  The
    ids come from [randomUUID()], which is taken to return ids that are
    not in use. *)
Theorem chat_opens_conversation :
  forall (Body : Type) (parse : Body -> string + ChatRequest) (body : Body)
         (message aiResponse : string) (w w1 : World),
  parse body = inr {| req_message := message; req_conversationId := None |} ->
  generateChatResponse message [] w = (Normal aiResponse, w1) ->
  uuid_fresh 3 w ->
  let id := uuid_src w 0%nat in
  exists title w',
    post_api_chat parse body w =
      (Normal {| res_status := 200;
                 res_body := ChatBody aiResponse id |}, w') /\
    fst (generateConversationTitle message w1) = Normal title /\
    users (storage w') = users (storage w) /\
    conversations (storage w') =
      conversations (storage w)
      ++ [ (id, {| conv_id := id; title := title;
                   createdAt := date_src w 0%nat |}) ] /\
    messages (storage w') =
      messages (storage w)
      ++ [ (uuid_src w 1%nat,
            {| msg_id := uuid_src w 1%nat; conversationId := Some id;
               role := "user"; content := message;
               timestamp := date_src w 1%nat |});
           (uuid_src w 2%nat,
            {| msg_id := uuid_src w 2%nat; conversationId := Some id;
               role := "assistant"; content := aiResponse;
               timestamp := date_src w 2%nat |}) ].
Proof.
  intros Body parse body message aiResponse w w1 Hparse Hgen Hfresh id.
  destruct (@chat_try_new Body parse body _ aiResponse w w1 Hparse
              eq_refl Hgen Hfresh)
    as (title & w2 & w' & Htitle & Hrun & Husers & Hconvs & Hmsgs).
  exists title, w'. split.
  - unfold post_api_chat. now apply try_normal.
  - simpl in Htitle. rewrite Htitle. repeat split; assumption.
Qed.

Lemma chat_opens_conversation_witness :
  fst (post_api_chat chatRequestSchema_parse
         {| raw_message := JString "Hello";
            raw_conversationId := JUndefined |} sample_world)
  = Normal (res_json (ChatBody "Welcome back" "u-0")).
Proof.
  destruct (@chat_opens_conversation RawBody chatRequestSchema_parse
              {| raw_message := JString "Hello";
                 raw_conversationId := JUndefined |}
              "Hello" "Welcome back" sample_world
              (snd (generateChatResponse "Hello" [] sample_world))
              eq_refl eq_refl sample_world_fresh)
    as (title & w' & Hrun & _).
  rewrite Hrun. reflexivity.
Defined.

(** C2. A request whose [generateChatResponse] call fails leaves the store
    as it was: [POST /api/chat] answers 400 with the error message as
    body, and no conversation and no message is created.  In particular,
    when neither credential variable is set, every request is answered
    400 with an error body and the world is left as it was. *)
Theorem chat_generation_failure_leaves_store :
  forall (Body : Type) (parse : Body -> string + ChatRequest) (body : Body)
         (w : World),
  (forall request e w1,
     parse body = inr request ->
     generateChatResponse (req_message request)
       (chat_history request (storage w)) w = (Throw e, w1) ->
     exists msg,
       post_api_chat parse body w =
         (Normal {| res_status := 400; res_body := ErrorBody msg |}, w1) /\
       storage w1 = storage w) /\
  (Js.truthy_opt (GEMINI_API_KEY (process_env w)) = false ->
   Js.truthy_opt (GOOGLE_API_KEY (process_env w)) = false ->
   exists msg,
     post_api_chat parse body w =
       (Normal {| res_status := 400; res_body := ErrorBody msg |}, w)).
Proof.
  intros Body parse body w. split.
  - intros request e w1 Hparse Hgen.
    destruct (generateChatResponse_throws _ _ _ Hgen) as (msg & _ & ->).
    destruct (generateChatResponse_frame _ _ _ Hgen) as (Hs & _).
    exists msg. split; [|exact Hs].
    unfold post_api_chat.
    erewrite try_throw
      by (eapply chat_try_generation_fails; eassumption).
    reflexivity.
  - intros Hk1 Hk2. unfold post_api_chat.
    destruct (parse body) as [issues|request] eqn:Hparse.
    + exists issues.
      erewrite try_throw by (apply chat_try_invalid; exact Hparse).
      reflexivity.
    + exists err_api_key.
      erewrite try_throw
        by (eapply chat_try_generation_fails;
            [exact Hparse
            | apply generateChatResponse_no_key; assumption]).
      reflexivity.
Qed.

Lemma chat_generation_failure_leaves_store_witness :
  (exists msg,
     post_api_chat chatRequestSchema_parse
       {| raw_message := JString "hi"; raw_conversationId := JUndefined |}
       sample_world_down
     = (Normal {| res_status := 400; res_body := ErrorBody msg |},
        snd (generateChatResponse "hi" [] sample_world_down)) /\
     storage (snd (generateChatResponse "hi" [] sample_world_down))
     = storage sample_world_down) /\
  (exists msg,
     post_api_chat chatRequestSchema_parse
       {| raw_message := JString "hi"; raw_conversationId := JUndefined |}
       sample_world_no_key
     = (Normal {| res_status := 400; res_body := ErrorBody msg |},
        sample_world_no_key)).
Proof.
  split.
  - apply (proj1 (@chat_generation_failure_leaves_store RawBody
                    chatRequestSchema_parse
                    {| raw_message := JString "hi";
                       raw_conversationId := JUndefined |}
                    sample_world_down)
             {| req_message := "hi"; req_conversationId := None |}
             (Js.new_Error err_generic)); reflexivity.
  - apply (proj2 (@chat_generation_failure_leaves_store RawBody
                    chatRequestSchema_parse
                    {| raw_message := JString "hi";
                       raw_conversationId := JUndefined |}
                    sample_world_no_key)); reflexivity.
Defined.




(** C4. The [POST /api/chat] handler maps failures to status codes as the
    specification partitions them.  A validation failure is answered 400
    with the error message as body, and so is a generation failure.
    Whatever the [try] block throws is one of the two, and the status of
    the answer is the one the partition gives it.  A thrown value that is
    not an [Error], which the partition leaves unclassified, is answered
    500 with the generic message. *)
Theorem chat_failure_status :
  forall (Body : Type) (parse : Body -> string + ChatRequest) (body : Body)
         (w : World),
  (forall issues,
     parse body = inl issues ->
     post_api_chat parse body w =
       (Normal {| res_status := 400; res_body := ErrorBody issues |}, w)) /\
  (forall request e w1,
     parse body = inr request ->
     generateChatResponse (req_message request)
       (chat_history request (storage w)) w = (Throw e, w1) ->
     exists msg,
       In msg generation_errors /\
       e = Js.new_Error msg /\
       post_api_chat parse body w =
         (Normal {| res_status := 400; res_body := ErrorBody msg |}, w1)) /\
  (forall e w1,
     chat_try parse body w = (Throw e, w1) ->
     (is_validation_failure e || is_generation_failure e)%bool = true /\
     exists msg,
       post_api_chat parse body w =
         (Normal {| res_status := spec_chat_status e;
                    res_body := ErrorBody msg |}, w1)) /\
  (forall value,
     spec_chat_status (Js.ThrownOther value) = 500 /\
     chat_catch (Js.ThrownOther value) =
       {| res_status := 500; res_body := ErrorBody unexpected_message |}).
Proof.
  intros Body parse body w. split; [|split; [|split]].
  - intros issues Hparse. unfold post_api_chat.
    erewrite try_throw by (apply chat_try_invalid; exact Hparse).
    reflexivity.
  - intros request e w1 Hparse Hgen.
    destruct (generateChatResponse_throws _ _ _ Hgen) as (msg & Hin & ->).
    exists msg. split; [exact Hin|]. split; [reflexivity|].
    unfold post_api_chat.
    erewrite try_throw
      by (eapply chat_try_generation_fails; [exact Hparse | exact Hgen]).
    reflexivity.
  - intros e w1 Hthrow.
    assert (Hpost : post_api_chat parse body w
                    = (Normal (chat_catch e), w1))
      by (unfold post_api_chat; erewrite try_throw by exact Hthrow;
          reflexivity).
    destruct (@chat_try_throws Body parse body w w1 e Hthrow)
      as [(issues & _ & -> & _)|(request & msg & _ & Hin & -> & _)].
    + split; [reflexivity|]. exists issues. exact Hpost.
    + pose proof (@generation_error_classified msg Hin) as Hclass.
      split; [now rewrite Hclass, orb_true_r|].
      exists msg. rewrite Hpost. unfold spec_chat_status.
      now rewrite Hclass, orb_true_r.
  - intros value. split; reflexivity.
Qed.

Lemma chat_failure_status_witness :
  post_api_chat chatRequestSchema_parse
    {| raw_message := JNumber 7; raw_conversationId := JUndefined |}
    sample_world
  = (Normal {| res_status := 400;
               res_body := ErrorBody "message: expected string" |},
     sample_world) /\
  (exists msg,
     In msg generation_errors /\
     Js.new_Error err_generic = Js.new_Error msg /\
     post_api_chat chatRequestSchema_parse
       {| raw_message := JString "hi"; raw_conversationId := JUndefined |}
       sample_world_down
     = (Normal {| res_status := 400; res_body := ErrorBody msg |},
        snd (generateChatResponse "hi" [] sample_world_down))) /\
  (is_validation_failure (Js.ThrownError "ZodError" "message: expected string")
   || is_generation_failure
        (Js.ThrownError "ZodError" "message: expected string"))%bool = true.
Proof.
  split; [|split].
  - apply (proj1 (@chat_failure_status RawBody chatRequestSchema_parse
                    {| raw_message := JNumber 7;
                       raw_conversationId := JUndefined |} sample_world)).
    reflexivity.
  - apply (proj1 (proj2
             (@chat_failure_status RawBody chatRequestSchema_parse
                {| raw_message := JString "hi";
                   raw_conversationId := JUndefined |} sample_world_down))
             {| req_message := "hi"; req_conversationId := None |});
      reflexivity.
  - apply (proj1 (proj2 (proj2
             (@chat_failure_status RawBody chatRequestSchema_parse
                {| raw_message := JNumber 7;
                   raw_conversationId := JUndefined |} sample_world)))
             (Js.ThrownError "ZodError" "message: expected string")
             sample_world).
    reflexivity.
Defined.

(** C5. For every id, [deleteConversation(id)] returns without an error.
    Afterwards no conversation has that id and the other conversations
    are the ones held before; the conversation map is the same when no
    conversation had the id.  Of the messages, an entry stays exactly
    when no message of the conversation has its key: on a map, whose keys
    are pairwise distinct, the messages left are the earlier ones whose
    [conversationId] is not the id, in their order, and the message map is
    the same when no message had the id.  So no remaining message has
    [conversationId] equal to the id and [getMessagesByConversation(id)]
    is empty.  The users are untouched. *)
Theorem deleteConversation_cascades : forall (id : string) (w : World),
  let w' := snd (deleteConversation id w) in
  fst (deleteConversation id w) = Normal tt /\
  map_has id (conversations (storage w')) = false /\
  (forall e, In e (conversations (storage w')) <->
             In e (conversations (storage w)) /\ fst e <> id) /\
  (map_has id (conversations (storage w)) = false ->
   conversations (storage w') = conversations (storage w)) /\
  (forall m, In m (map_values (messages (storage w'))) ->
             conversationId m <> Some id) /\
  getMessagesByConversation id w' = (Normal [], w') /\
  (forall e,
     In e (messages (storage w')) <->
     In e (messages (storage w)) /\
     forall e', In e' (messages (storage w)) ->
                conversationId (snd e') = Some id -> fst e' <> fst e) /\
  (NoDup (map_keys (messages (storage w))) ->
   messages (storage w') =
     filter (fun e => negb (Js.strict_eq (conversationId (snd e)) id))
            (messages (storage w))) /\
  (messages_under id (storage w) = [] ->
   messages (storage w') = messages (storage w)) /\
  users (storage w') = users (storage w).
Proof.
  intros id w w'.
  assert (Hsurv : forall e, In e (messages (storage w')) ->
            In e (messages (storage w)) /\
            Js.strict_eq (conversationId (snd e)) id = false)
    by (intros e; apply deleteConversation_survivor).
  assert (Hnone : forall m, In m (map_values (messages (storage w'))) ->
            conversationId m <> Some id).
  { intros m Hin. apply in_map_iff in Hin. destruct Hin as [e [<- Hin]].
    destruct (Hsurv e Hin) as [_ Hne]. intros Heq.
    apply strict_eq_true in Heq. congruence. }
  assert (Hstays := deleteConversation_stays id w).
  assert (Hothers := @deleteConversation_keeps_others id w).
  assert (Hsame := @deleteConversation_no_messages id w).
  fold w' in Hstays, Hothers, Hsame.
  subst w'. rewrite deleteConversation_run in *. simpl in *.
  split; [reflexivity|].
  split; [apply map_delete_has|].
  split.
  { intros e. unfold map_delete. rewrite filter_In, negb_true_iff.
    now rewrite String.eqb_neq. }
  split; [apply map_delete_absent|].
  split; [exact Hnone|].
  split.
  { rewrite getMessagesByConversation_run. unfold messages_under. simpl.
    rewrite filter_none; [reflexivity|].
    intros m Hin. apply not_true_is_false. intros Heq.
    apply strict_eq_true in Heq. exact (Hnone m Hin Heq). }
  split; [exact Hstays|].
  split; [exact Hothers|].
  split; [exact Hsame | reflexivity].
Qed.

Lemma deleteConversation_cascades_witness :
  conversations (storage (snd (deleteConversation "c-9" sample_world))) =
  conversations (storage sample_world) /\
  messages (storage (snd (deleteConversation "c-9" sample_world))) =
  messages (storage sample_world) /\
  messages (storage (snd (deleteConversation "c-1" sample_world))) = [].
Proof.
  destruct (deleteConversation_cascades "c-9" sample_world)
    as (_ & _ & _ & Hnoop & _ & _ & _ & _ & Hsame & _).
  destruct (deleteConversation_cascades "c-1" sample_world)
    as (_ & _ & _ & _ & _ & _ & _ & Hothers & _).
  split; [apply Hnoop; reflexivity|].
  split; [apply Hsame; reflexivity|].
  rewrite Hothers; [reflexivity|].
  simpl. repeat constructor; simpl; intuition discriminate.
Defined.

(** C6. For every id and every store, [getMessagesByConversation(id)]
    returns, without an error, exactly the stored messages whose
    [conversationId] is the id, by ascending timestamp, messages of equal
    timestamp in the insertion order of the store; this determines the
    result, and it is the empty array when no stored message has the id. *)
Theorem getMessagesByConversation_filters_and_orders :
  forall (id : string) (w : World),
  exists out,
    getMessagesByConversation id w = (Normal out, w) /\
    (forall m, In m out <->
               In m (map_values (messages (storage w))) /\
               conversationId m = Some id) /\
    stable_sorted timestamp (messages_under id (storage w)) out /\
    (forall out',
       stable_sorted timestamp (messages_under id (storage w)) out' ->
       out' = out) /\
    ((forall m, In m (map_values (messages (storage w))) ->
                conversationId m <> Some id) ->
     out = []).
Proof.
  intros id w. eexists. split; [apply getMessagesByConversation_run|].
  split.
  { intros m.
    rewrite (array_sort_In oldest_first).
    apply messages_under_In. }
  split; [apply (@array_sort_stable_sorted _ _ _ oldest_first_key)|].
  split; [intros out'; apply (@array_sort_unique _ _ _ oldest_first_key)|].
  intros Hnone. unfold messages_under. rewrite filter_none; [reflexivity|].
  intros m Hin. apply not_true_is_false. intros Heq.
  apply strict_eq_true in Heq. exact (Hnone m Hin Heq).
Qed.

Lemma getMessagesByConversation_filters_and_orders_witness :
  getMessagesByConversation "c-9" sample_world = (Normal [], sample_world).
Proof.
  destruct (getMessagesByConversation_filters_and_orders "c-9" sample_world)
    as (out & Hrun & _ & _ & _ & Hempty).
  rewrite Hrun. rewrite Hempty; [reflexivity|].
  simpl. intros m [<-|[<-|[]]]; discriminate.
Defined.

(** C7. For every store, whatever the order of the conversation map,
    [getAllConversations()] returns, without an error, all the stored
    conversations, from the newest [createdAt] to the oldest. *)
Theorem getAllConversations_newest_first : forall (w : World),
  exists out,
    getAllConversations w = (Normal out, w) /\
    Permutation (map_values (conversations (storage w))) out /\
    newest_first_order out.
Proof.
  intros w. eexists. split; [apply getAllConversations_run|].
  pose proof (@array_sort_stable_sorted _ newest_first
                (fun c => - createdAt c) newest_first_key
                (map_values (conversations (storage w))))
    as (Hperm & Hord & _).
  split; [exact Hperm|].
  unfold newest_first_order. unfold ordered_by in Hord.
  eapply StronglySorted_impl; [|exact Hord]. simpl. intros; lia.
Qed.

(** C8. [generateConversationTitle] never raises: for every input and
    every behaviour of the provider it returns a title, and that title is
    exactly the literal New Conversation when the provider call fails or
    its textual result is empty (absent or the empty string). *)
Theorem generateConversationTitle_never_raises :
  forall (firstMessage : string) (w : World),
  exists title w',
    generateConversationTitle firstMessage w = (Normal title, w') /\
    storage w' = storage w /\
    (forall e,
       ai_src w 0%nat (title_request firstMessage) = Rejected e ->
       title = "New Conversation") /\
    (forall text,
       ai_src w 0%nat (title_request firstMessage) = Resolved text ->
       Js.truthy_opt text = false ->
       title = "New Conversation").
Proof.
  intros firstMessage w.
  unfold generateConversationTitle, try_catch, bind,
    ai_models_generateContent.
  destruct (ai_src w 0%nat (title_request firstMessage)) as [text|e];
    do 2 eexists; (split; [reflexivity|]); (split; [reflexivity|]); split.
  - intros e H. discriminate.
  - intros text' H Hfalsy. injection H as <-.
    rewrite or_else_falsy by assumption. apply default_title_clean.
  - reflexivity.
  - intros text H. discriminate.
Qed.

Lemma generateConversationTitle_never_raises_witness :
  fst (generateConversationTitle "Hello" sample_world_down)
  = Normal "New Conversation".
Proof.
  destruct (generateConversationTitle_never_raises "Hello" sample_world_down)
    as (title & w' & Hrun & _ & Hrejected & _).
  rewrite Hrun. simpl. f_equal.
  apply (Hrejected (Js.new_Error "503 Service Unavailable")).
  reflexivity.
Defined.

(** C9. On every turn that [POST /api/chat] answers with 200, the two
    messages the turn persists are the user message, whose content is the
    message of the request, and the assistant message, whose content is
    the [response] field of the answer; both carry the [conversationId]
    of the answer.  The ids come from [randomUUID()], taken to return ids
    not in use. *)
Theorem chat_transcript_matches_reply :
  forall (Body : Type) (parse : Body -> string + ChatRequest) (body : Body)
         (w w' : World) (response : Response),
  uuid_fresh 3 w ->
  post_api_chat parse body w = (Normal response, w') ->
  res_status response = 200 ->
  exists request reply cid user_message assistant_message,
    parse body = inr request /\
    res_body response = ChatBody reply cid /\
    messages (storage w') =
      messages (storage w)
      ++ [ (msg_id user_message, user_message);
           (msg_id assistant_message, assistant_message) ] /\
    role user_message = "user" /\
    content user_message = req_message request /\
    role assistant_message = "assistant" /\
    content assistant_message = reply /\
    conversationId user_message = Some cid /\
    conversationId assistant_message = Some cid.
Proof.
  intros Body parse body w w' response Hfresh Hpost Hstatus.
  unfold post_api_chat in Hpost.
  destruct (parse body) as [issues|request] eqn:Hparse.
  { erewrite try_throw in Hpost
      by (apply chat_try_invalid; exact Hparse).
    injection Hpost as <- _. discriminate Hstatus. }
  destruct (generateChatResponse_outcome (req_message request)
              (chat_history request (storage w)) w)
    as (w1 & _ & [(reply & Hgen)|(msg & _ & Hgen)]).
  2:{ erewrite try_throw in Hpost
        by (eapply chat_try_generation_fails; [exact Hparse | exact Hgen]).
      injection Hpost as <- _. discriminate Hstatus. }
  exists request, reply.
  destruct (Js.truthy_opt (req_conversationId request)) eqn:Htruthy.
  - destruct (req_conversationId request) as [cid|] eqn:Hcid;
      [|discriminate Htruthy].
    simpl in Htruthy.
    destruct (@chat_try_existing Body parse body request cid reply w w1
                Hparse Hcid Htruthy Hgen (uuid_fresh_weaken Hfresh))
      as (w2 & Hrun & _ & _ & Hmsgs).
    erewrite try_normal in Hpost by exact Hrun.
    injection Hpost as <- <-.
    exists cid,
      {| msg_id := uuid_src w 0%nat; conversationId := Some cid;
         role := "user"; content := req_message request;
         timestamp := date_src w 0%nat |},
      {| msg_id := uuid_src w 1%nat; conversationId := Some cid;
         role := "assistant"; content := reply;
         timestamp := date_src w 1%nat |}.
    split; [reflexivity|]. split; [reflexivity|].
    split; [exact Hmsgs|]. repeat split.
  - destruct (@chat_try_new Body parse body request reply w w1
                Hparse Htruthy Hgen Hfresh)
      as (title & w2 & w3 & _ & Hrun & _ & _ & Hmsgs).
    erewrite try_normal in Hpost by exact Hrun.
    injection Hpost as <- <-.
    exists (uuid_src w 0%nat),
      {| msg_id := uuid_src w 1%nat;
         conversationId := Some (uuid_src w 0%nat);
         role := "user"; content := req_message request;
         timestamp := date_src w 1%nat |},
      {| msg_id := uuid_src w 2%nat;
         conversationId := Some (uuid_src w 0%nat);
         role := "assistant"; content := reply;
         timestamp := date_src w 2%nat |}.
    split; [reflexivity|]. split; [reflexivity|].
    split; [exact Hmsgs|]. repeat split.
Qed.

Lemma chat_transcript_matches_reply_witness :
  exists request reply cid user_message assistant_message,
    chatRequestSchema_parse
      {| raw_message := JString "Hello"; raw_conversationId := JUndefined |}
    = inr request /\
    res_body (res_json (ChatBody "Welcome back" "u-0")) = ChatBody reply cid /\
    messages
      (storage
         (snd (post_api_chat chatRequestSchema_parse
                 {| raw_message := JString "Hello";
                    raw_conversationId := JUndefined |} sample_world))) =
      messages (storage sample_world)
      ++ [ (msg_id user_message, user_message);
           (msg_id assistant_message, assistant_message) ] /\
    role user_message = "user" /\
    content user_message = req_message request /\
    role assistant_message = "assistant" /\
    content assistant_message = reply /\
    conversationId user_message = Some cid /\
    conversationId assistant_message = Some cid.
Proof.
  apply (@chat_transcript_matches_reply RawBody chatRequestSchema_parse
           {| raw_message := JString "Hello";
              raw_conversationId := JUndefined |}
           sample_world
           (snd (post_api_chat chatRequestSchema_parse
                   {| raw_message := JString "Hello";
                      raw_conversationId := JUndefined |} sample_world))
           (res_json (ChatBody "Welcome back" "u-0"))
           sample_world_fresh);
    reflexivity.
Defined.

(** C10. [createMessage] stores [null] for every falsy [conversationId],
    the empty string as well as an absent one: the message it creates and
    stores has [conversationId] null, and [getMessagesByConversation(id)]
    returns it for no id and in no state of the store. *)
Theorem createMessage_falsy_conversationId :
  forall (insertMessage : InsertMessage) (w : World),
  im_conversationId insertMessage = None \/
  im_conversationId insertMessage = Some EmptyString ->
  exists m w',
    createMessage insertMessage w = (Normal m, w') /\
    conversationId m = None /\
    In m (map_values (messages (storage w'))) /\
    forall (id : string) (w2 w3 : World) (out : list Message),
      getMessagesByConversation id w2 = (Normal out, w3) -> ~ In m out.
Proof.
  intros insertMessage w Hfalsy.
  destruct (createMessage_run insertMessage w)
    as (m & w' & Hrun & Hcid & _ & _ & Hin).
  exists m, w'. split; [exact Hrun|].
  assert (Hnull : conversationId m = None).
  { rewrite Hcid. apply or_null_falsy.
    destruct Hfalsy as [->| ->]; reflexivity. }
  split; [exact Hnull|]. split; [exact Hin|].
  intros id w2 w3 out Hget Hout.
  rewrite getMessagesByConversation_run in Hget. injection Hget as <- _.
  rewrite (array_sort_In oldest_first) in Hout.
  apply messages_under_In in Hout. destruct Hout as [_ Hsome].
  congruence.
Qed.

Lemma createMessage_falsy_conversationId_witness :
  exists m w',
    createMessage {| im_conversationId := Some EmptyString;
                     im_role := "user"; im_content := "Hello" |}
                  sample_world = (Normal m, w') /\
    conversationId m = None /\
    ~ In m (messages_under EmptyString (storage w')).
Proof.
  destruct (createMessage_falsy_conversationId
              {| im_conversationId := Some EmptyString;
                 im_role := "user"; im_content := "Hello" |}
              sample_world (or_intror eq_refl))
    as (m & w' & Hrun & Hnull & _ & Hnever).
  exists m, w'. split; [exact Hrun|]. split; [exact Hnull|].
  intros Hin. apply messages_under_In in Hin. destruct Hin as [_ Hsome].
  congruence.
Defined.

(* ================================================================= *)
(** * Part IV. Further properties of the code *)
(* ================================================================= *)

(** X1. [createUser] always returns a user carrying the given fields and
    the id [randomUUID()] returned; [getUser] of that id then returns this
    user, [getUser] of any other id returns what it returned before, and
    the conversations and messages are untouched. *)
Theorem createUser_then_getUser :
  forall (insertUser : InsertUser) (w : World),
  exists user w',
    createUser insertUser w = (Normal user, w') /\
    user_id user = uuid_src w 0%nat /\
    username user = iu_username insertUser /\
    password user = iu_password insertUser /\
    getUser (user_id user) w' = (Normal (Some user), w') /\
    (forall id, id <> user_id user ->
                fst (getUser id w') = fst (getUser id w)) /\
    conversations (storage w') = conversations (storage w) /\
    messages (storage w') = messages (storage w).
Proof.
  intros insertUser w.
  unfold createUser, getUser, bind, randomUUID, get_storage, put_storage,
    ret, set_storage. simpl.
  do 2 eexists. split; [reflexivity|]. simpl.
  split; [reflexivity|]. split; [reflexivity|]. split; [reflexivity|].
  split; [now rewrite map_get_set_same|].
  split; [|split; reflexivity].
  intros id Hne. now rewrite map_get_set_other.
Qed.

(** X2. [getUserByUsername] returns the first user, in insertion order,
    whose username is the given name, and [undefined] exactly when no
    stored user has that name; it changes nothing. *)
Theorem getUserByUsername_first_match :
  forall (name : string) (w : World),
  exists result,
    getUserByUsername name w = (Normal result, w) /\
    match result with
    | Some user =>
        exists before after,
          map_values (users (storage w)) = before ++ user :: after /\
          username user = name /\
          Forall (fun u => username u <> name) before
    | None =>
        Forall (fun u => username u <> name)
               (map_values (users (storage w)))
    end.
Proof.
  intros name w. eexists. split; [reflexivity|].
  pose proof (find_first (fun user => String.eqb (username user) name)
                (map_values (users (storage w)))) as H.
  destruct (find _ _) as [user|].
  - destruct H as (before & after & Heq & Hname & Hall).
    exists before, after. split; [exact Heq|].
    split; [now apply String.eqb_eq|].
    eapply Forall_impl; [|exact Hall]. simpl. intros u.
    now apply String.eqb_neq.
  - eapply Forall_impl; [|exact H]. simpl. intros u.
    now apply String.eqb_neq.
Qed.

(** X3. [createUser] does not check the username: when the id is new, the
    user is added after the stored ones, so [getUserByUsername] of its
    name returns the user who already had that name if there is one, and
    the new user otherwise. *)
Theorem createUser_keeps_earlier_username :
  forall (insertUser : InsertUser) (w : World),
  map_has (uuid_src w 0%nat) (users (storage w)) = false ->
  exists user w',
    createUser insertUser w = (Normal user, w') /\
    map_values (users (storage w')) =
      map_values (users (storage w)) ++ [user] /\
    fst (getUserByUsername (iu_username insertUser) w') =
      match fst (getUserByUsername (iu_username insertUser) w) with
      | Normal (Some earlier) => Normal (Some earlier)
      | _ => Normal (Some user)
      end.
Proof.
  intros insertUser w Hfresh.
  unfold createUser, getUserByUsername, bind, randomUUID, get_storage,
    put_storage, ret, set_storage. simpl.
  do 2 eexists. split; [reflexivity|]. simpl.
  rewrite map_set_fresh by exact Hfresh.
  unfold map_values. rewrite map_app. simpl. split; [reflexivity|].
  rewrite find_app.
  destruct (find _ (map snd (users (storage w)))); [reflexivity|].
  simpl. now rewrite String.eqb_refl.
Qed.

Lemma createUser_keeps_earlier_username_witness :
  fst (getUserByUsername "ada"
         (snd (createUser {| iu_username := "ada"; iu_password := "pw-2" |}
                 sample_world_users)))
  = Normal (Some {| user_id := "p-1"; username := "ada";
                    password := "pw-1" |}).
Proof.
  destruct (createUser_keeps_earlier_username
              {| iu_username := "ada"; iu_password := "pw-2" |}
              sample_world_users eq_refl)
    as (user & w' & Hrun & _ & Hfind).
  rewrite Hrun. cbn [snd].
  etransitivity; [exact Hfind | reflexivity].
Defined.

(** X4. In the result of [getAllConversations()] the conversations that
    share a [createdAt] appear in the insertion order of the store: two
    conversations created in the same millisecond are listed the older
    first, although the listing as a whole is newest first. *)
Theorem getAllConversations_ties_in_insertion_order :
  forall (w : World) (t : Z),
  filter (fun c => createdAt c =? t)
         (array_sort newest_first (map_values (conversations (storage w))))
  = filter (fun c => createdAt c =? t)
           (map_values (conversations (storage w))) /\
  getAllConversations w =
    (Normal (array_sort newest_first
               (map_values (conversations (storage w)))), w).
Proof.
  intros w t. split; [|reflexivity].
  pose proof (array_sort_with_key newest_first (fun c => - createdAt c)
                newest_first_key (- t)
                (map_values (conversations (storage w)))) as H.
  unfold with_key in H.
  assert (Hext : forall l : list Conversation,
            filter (fun c => createdAt c =? t) l =
            filter (fun c => - createdAt c =? - t) l).
  { intros l. apply filter_ext. intros c.
    destruct (Z.eqb_spec (createdAt c) t),
             (Z.eqb_spec (- createdAt c) (- t)); reflexivity || lia. }
  rewrite !Hext. exact H.
Qed.

(** X5. A conversation created under a new id at a time later than the
    [createdAt] of every stored conversation heads the listing:
    [getAllConversations()] then returns it followed by what it returned
    before. *)
Theorem createConversation_listed_first :
  forall (insertConversation : InsertConversation) (w : World)
         (listing : list Conversation),
  map_has (uuid_src w 0%nat) (conversations (storage w)) = false ->
  Forall (fun c => createdAt c < date_src w 0%nat)
         (map_values (conversations (storage w))) ->
  getAllConversations w = (Normal listing, w) ->
  exists conversation w',
    createConversation insertConversation w = (Normal conversation, w') /\
    title conversation = ic_title insertConversation /\
    getAllConversations w' = (Normal (conversation :: listing), w').
Proof.
  intros insertConversation w listing Hfresh Hlater Hlist.
  rewrite getAllConversations_run in Hlist. injection Hlist as <-.
  do 2 eexists. split; [now apply createConversation_fresh|].
  split; [reflexivity|].
  rewrite getAllConversations_run. simpl. f_equal. f_equal.
  unfold map_values. rewrite map_app. simpl.
  apply (@array_sort_app_head _ newest_first (fun c => - createdAt c)
           newest_first_key).
  intros y Hy. rewrite Forall_forall in Hlater.
  specialize (Hlater y Hy). simpl. lia.
Qed.

Lemma createConversation_listed_first_witness :
  exists conversation w',
    createConversation {| ic_title := "Second" |} sample_world
    = (Normal conversation, w') /\
    title conversation = "Second" /\
    getAllConversations w' =
      (Normal [ conversation;
                {| conv_id := "c-1"; title := "Greetings";
                   createdAt := 10 |} ], w').
Proof.
  apply (@createConversation_listed_first {| ic_title := "Second" |}
           sample_world (map snd (conversations sample_storage))).
  - reflexivity.
  - simpl. repeat constructor.
  - reflexivity.
Defined.

(** X6. When every conversation is stored under its own id,
    [deleteConversation(id)] takes the conversation with that id out of
    the listing and leaves the others in the order they had:
    [getAllConversations()] returns its earlier result without the
    conversations whose id is the deleted one. *)
Theorem deleteConversation_unlists :
  forall (id : string) (w : World) (listing : list Conversation),
  keyed_by_id (storage w) ->
  getAllConversations w = (Normal listing, w) ->
  let w' := snd (deleteConversation id w) in
  getAllConversations w' =
    (Normal (filter (fun c => negb (String.eqb (conv_id c) id)) listing),
     w').
Proof.
  intros id w listing Hkeyed Hlist w'.
  rewrite getAllConversations_run in Hlist. injection Hlist as <-.
  subst w'. rewrite deleteConversation_run.
  rewrite getAllConversations_run. simpl. f_equal. f_equal.
  unfold map_values, map_delete.
  rewrite (map_filter_snd _
             (fun c => negb (String.eqb (conv_id c) id))).
  - apply (@array_sort_filter _ newest_first (fun c => - createdAt c)
             newest_first_key).
  - intros e He. unfold keyed_by_id in Hkeyed.
    rewrite Forall_forall in Hkeyed. now rewrite (Hkeyed e He).
Qed.

Lemma deleteConversation_unlists_witness :
  getAllConversations (snd (deleteConversation "c-1" sample_world)) =
    (Normal [], snd (deleteConversation "c-1" sample_world)).
Proof.
  apply (@deleteConversation_unlists "c-1" sample_world
           (map snd (conversations sample_storage))).
  - repeat constructor.
  - reflexivity.
Defined.

(** X7. On a store whose message keys are pairwise distinct, as the keys
    of a [Map] are, [deleteConversation(id)] removes nothing but the
    messages of that conversation: the messages left are the earlier ones
    whose [conversationId] is not the id, in their order, and
    [getMessagesByConversation] of any other id returns what it returned
    before. *)
Theorem deleteConversation_spares_other_conversations :
  forall (id : string) (w : World),
  NoDup (map_keys (messages (storage w))) ->
  let w' := snd (deleteConversation id w) in
  messages (storage w') =
    filter (fun e => negb (Js.strict_eq (conversationId (snd e)) id))
           (messages (storage w)) /\
  forall other,
    other <> id ->
    fst (getMessagesByConversation other w') =
    fst (getMessagesByConversation other w).
Proof.
  intros id w Hnd w'. split.
  - now apply deleteConversation_keeps_others.
  - intros other Hne. subst w'.
    rewrite !getMessagesByConversation_run. cbn [fst].
    now rewrite deleteConversation_other_under.
Qed.

Lemma deleteConversation_spares_other_conversations_witness :
  fst (getMessagesByConversation "c-1"
         (snd (deleteConversation "c-2" sample_world))) =
  fst (getMessagesByConversation "c-1" sample_world).
Proof.
  apply (@deleteConversation_spares_other_conversations "c-2"
           sample_world).
  - simpl. repeat constructor; simpl; intuition discriminate.
  - discriminate.
Defined.

(** X8. Deleting a conversation twice is the same as deleting it once:
    the second [deleteConversation(id)] finds nothing to remove and leaves
    the store as the first one left it. *)
Theorem deleteConversation_twice :
  forall (id : string) (w : World),
  storage (snd (deleteConversation id (snd (deleteConversation id w)))) =
  storage (snd (deleteConversation id w)).
Proof.
  intros id w.
  assert (Hnone : forall e,
            In e (messages (storage (snd (deleteConversation id w)))) ->
            Js.strict_eq (conversationId (snd e)) id = false)
    by (intros e He; now apply (deleteConversation_survivor id w)).
  assert (Hgone : map_has id
            (conversations (storage (snd (deleteConversation id w))))
            = false)
    by (rewrite deleteConversation_run; apply map_delete_has).
  revert Hnone Hgone.
  generalize (snd (deleteConversation id w)). intros w1 Hnone Hgone.
  rewrite deleteConversation_run. simpl.
  rewrite (filter_none _ _ Hnone). simpl.
  rewrite filter_all by reflexivity.
  rewrite map_delete_absent by exact Hgone.
  now destruct (storage w1).
Qed.

(** X9. [DELETE /api/conversations/:id] answers 200 with
    [{success: true}] for every id, known or not; right after it,
    [GET /api/conversations/:id/messages] for that id answers 200 with an
    empty array.  When the id names no conversation and no message
    refers to it, the store is left as it was. *)
Theorem delete_route_then_messages_route :
  forall (id : string) (w : World),
  exists w',
    delete_api_conversation id w =
      (Normal {| res_status := 200; res_body := SuccessBody true |}, w') /\
    get_api_conversation_messages id w' =
      (Normal {| res_status := 200; res_body := MessagesBody [] |}, w') /\
    (map_has id (conversations (storage w)) = false ->
     messages_under id (storage w) = [] ->
     storage w' = storage w).
Proof.
  intros id w. exists (snd (deleteConversation id w)).
  assert (Hrun : deleteConversation id w =
                 (Normal tt, snd (deleteConversation id w)))
    by (now rewrite deleteConversation_run).
  split.
  - unfold delete_api_conversation.
    erewrite try_normal; [reflexivity|].
    erewrite bind_normal by exact Hrun. reflexivity.
  - split; [|apply deleteConversation_nothing].
    unfold get_api_conversation_messages.
    erewrite try_normal; [reflexivity|].
    erewrite bind_normal by apply getMessagesByConversation_run.
    rewrite deleteConversation_under_deleted. reflexivity.
Qed.

Lemma delete_route_then_messages_route_witness :
  exists w',
    delete_api_conversation "c-9" sample_world =
      (Normal {| res_status := 200; res_body := SuccessBody true |}, w') /\
    storage w' = storage sample_world.
Proof.
  destruct (delete_route_then_messages_route "c-9" sample_world)
    as (w' & Hrun & _ & Hsame).
  exists w'. split; [exact Hrun|]. apply Hsame; reflexivity.
Defined.

(** X10. [POST /api/chat] answers every body with 200 or 400 and never
    lets an exception escape: it answers 200 exactly when the body passes
    the schema and [generateChatResponse] returns, and whenever it answers
    400 the body is an error message and the store is as it was. *)
Theorem post_api_chat_status_cases :
  forall (Body : Type) (parse : Body -> string + ChatRequest) (body : Body)
         (w : World),
  exists response w',
    post_api_chat parse body w = (Normal response, w') /\
    (res_status response = 200 \/ res_status response = 400) /\
    (res_status response = 200 <->
     exists request reply w1,
       parse body = inr request /\
       generateChatResponse (req_message request)
         (chat_history request (storage w)) w = (Normal reply, w1)) /\
    (res_status response = 400 ->
     storage w' = storage w /\
     exists msg, res_body response = ErrorBody msg).
Proof.
  intros Body parse body w. unfold post_api_chat.
  destruct (parse body) as [issues|request] eqn:Hparse.
  - do 2 eexists.
    erewrite try_throw by (apply chat_try_invalid; exact Hparse).
    split; [reflexivity|]. simpl. split; [now right|]. split.
    + split; [discriminate|]. intros (r & _ & _ & H & _). discriminate H.
    + intros _. split; [reflexivity | now eexists].
  - destruct (generateChatResponse_outcome (req_message request)
                (chat_history request (storage w)) w)
      as (w1 & Hfr & [(reply & Hgen)|(msg & _ & Hgen)]).
    + destruct (chat_try_after_generation parse body _ Hparse Hgen)
        as (cid & w' & Hrun).
      do 2 eexists. erewrite try_normal by exact Hrun.
      split; [reflexivity|]. simpl. split; [now left|]. split.
      * split; [|reflexivity]. intros _. now exists request, reply, w1.
      * discriminate.
    + do 2 eexists.
      erewrite try_throw
        by (eapply chat_try_generation_fails; [exact Hparse | exact Hgen]).
      split; [reflexivity|]. simpl. split; [now right|]. split.
      * split; [discriminate|].
        intros (r & reply & w2 & Hr & Hg). injection Hr as <-.
        rewrite Hgen in Hg. discriminate Hg.
      * intros _. split; [apply Hfr | now eexists].
Qed.

Lemma post_api_chat_status_cases_witness :
  exists response w',
    post_api_chat chatRequestSchema_parse
      {| raw_message := JString EmptyString;
         raw_conversationId := JUndefined |} sample_world
    = (Normal response, w') /\
    storage w' = storage sample_world /\
    exists msg, res_body response = ErrorBody msg.
Proof.
  destruct (post_api_chat_status_cases chatRequestSchema_parse
              {| raw_message := JString EmptyString;
                 raw_conversationId := JUndefined |} sample_world)
    as (response & w' & Hrun & _ & _ & H400).
  exists response, w'. split; [exact Hrun|]. apply H400.
  assert (H : fst (post_api_chat chatRequestSchema_parse
                     {| raw_message := JString EmptyString;
                        raw_conversationId := JUndefined |} sample_world)
              = Normal {| res_status := 400;
                          res_body :=
                            ErrorBody "message: expected a non-empty string" |})
    by reflexivity.
  rewrite Hrun in H. cbn [fst] in H. injection H as ->. reflexivity.
Defined.

(** X11. When [generateChatResponse] returns, a credential is configured,
    the provider call resolved, and the reply is the text of the provider
    if that text is not empty and the fixed apology otherwise: the reply
    is never the empty string. *)
Theorem generateChatResponse_reply_not_empty :
  forall (message : string) (history : list ChatMessage) (w w' : World)
         (reply : string),
  generateChatResponse message history w = (Normal reply, w') ->
  Js.truthy reply = true /\
  (Js.truthy_opt (GEMINI_API_KEY (process_env w)) = true \/
   Js.truthy_opt (GOOGLE_API_KEY (process_env w)) = true) /\
  exists text,
    ai_src w 0%nat (chat_request message history) = Resolved text /\
    reply = Js.or_else text fallback_reply.
Proof.
  intros message history w w' reply H.
  unfold generateChatResponse, try_catch, bind, get_env in H.
  destruct (negb (Js.truthy_opt (GEMINI_API_KEY (process_env w)))
            && negb (Js.truthy_opt (GOOGLE_API_KEY (process_env w))))%bool
    eqn:Hkeys.
  - discriminate H.
  - unfold ret in H. cbv beta iota in H.
    unfold ai_models_generateContent in H.
    destruct (ai_src w 0%nat (chat_request message history))
      as [text|e] eqn:Hai.
    + injection H as <- _.
      split; [apply or_else_truthy, fallback_reply_truthy|].
      split; [|now exists text].
      apply andb_false_iff in Hkeys.
      destruct Hkeys as [Hk|Hk]; apply negb_false_iff in Hk; tauto.
    + match type of H with
      | ?c ?w1 = _ =>
          destruct (classify_throws e w1) as (msg & _ & Hc)
      end.
      rewrite Hc in H. discriminate H.
Qed.

Lemma generateChatResponse_reply_not_empty_witness :
  Js.truthy "Welcome back" = true /\
  (Js.truthy_opt (GEMINI_API_KEY (process_env sample_world)) = true \/
   Js.truthy_opt (GOOGLE_API_KEY (process_env sample_world)) = true) /\
  exists text,
    ai_src sample_world 0%nat (chat_request "Hello" []) = Resolved text /\
    "Welcome back" = Js.or_else text fallback_reply.
Proof.
  apply (@generateChatResponse_reply_not_empty "Hello" [] sample_world
           (snd (generateChatResponse "Hello" [] sample_world))
           "Welcome back").
  reflexivity.
Defined.

(** X12. When a credential is configured and the provider call rejects,
    [generateChatResponse] throws a new [Error] and leaves the store
    alone.  Its message is chosen by what the provider's message contains
    as a substring, tested in this order: API_KEY, then quota, then rate;
    it is the generic message when none occurs or when what the provider
    threw is not an [Error]. *)
Theorem generateChatResponse_classifies_rejection :
  forall (message : string) (history : list ChatMessage) (w : World)
         (e : Js.Thrown),
  (Js.truthy_opt (GEMINI_API_KEY (process_env w))
   || Js.truthy_opt (GOOGLE_API_KEY (process_env w)))%bool = true ->
  ai_src w 0%nat (chat_request message history) = Rejected e ->
  exists msg w',
    generateChatResponse message history w
    = (Throw (Js.new_Error msg), w') /\
    storage w' = storage w /\
    match e with
    | Js.ThrownError _ theirs =>
        (Js.includes "API_KEY" theirs = true -> msg = err_api_key) /\
        (Js.includes "API_KEY" theirs = false ->
         Js.includes "quota" theirs = true -> msg = err_quota) /\
        (Js.includes "API_KEY" theirs = false ->
         Js.includes "quota" theirs = false ->
         Js.includes "rate" theirs = true -> msg = err_rate) /\
        (Js.includes "API_KEY" theirs = false ->
         Js.includes "quota" theirs = false ->
         Js.includes "rate" theirs = false -> msg = err_generic)
    | Js.ThrownOther _ => msg = err_generic
    end.
Proof.
  intros message history w e Hkeys Hai.
  unfold generateChatResponse, try_catch, bind, get_env.
  replace (negb (Js.truthy_opt (GEMINI_API_KEY (process_env w)))
           && negb (Js.truthy_opt (GOOGLE_API_KEY (process_env w))))%bool
    with false
    by (rewrite <- negb_orb, Hkeys; reflexivity).
  unfold ret. cbv beta iota. unfold ai_models_generateContent.
  rewrite Hai. cbv beta iota.
  destruct e as [name theirs|value].
  - destruct (Js.includes "API_KEY" theirs) eqn:H1;
      [|destruct (Js.includes "quota" theirs) eqn:H2;
        [|destruct (Js.includes "rate" theirs) eqn:H3]];
      do 2 eexists; (split; [reflexivity|]); (split; [reflexivity|]);
      repeat split; intros; try reflexivity; discriminate.
  - do 2 eexists. split; [reflexivity|]. split; reflexivity.
Qed.

Lemma generateChatResponse_classifies_rejection_witness :
  exists w',
    generateChatResponse "Hello" [] sample_world_overloaded
    = (Throw (Js.new_Error err_rate), w').
Proof.
  destruct (@generateChatResponse_classifies_rejection "Hello" []
              sample_world_overloaded
              (Js.new_Error
                 "The model is overloaded, could not generate content")
              eq_refl eq_refl)
    as (msg & w' & Hrun & _ & _ & _ & Hrate & _).
  exists w'. rewrite Hrun.
  now rewrite (Hrate eq_refl eq_refl eq_refl).
Defined.

(** X13. Whatever makes [generateChatResponse] fail, what it throws is an
    [Error] whose message is one of its four fixed messages, never the
    text of the provider, and the store is as it was.  When neither
    credential variable is set the message is the one about the API key,
    and the world is untouched: the provider has not been called. *)
Theorem generateChatResponse_failure_messages :
  forall (message : string) (history : list ChatMessage) (w w' : World)
         (e : Js.Thrown),
  generateChatResponse message history w = (Throw e, w') ->
  exists msg,
    e = Js.new_Error msg /\
    In msg [err_api_key; err_quota; err_rate; err_generic] /\
    storage w' = storage w /\
    (Js.truthy_opt (GEMINI_API_KEY (process_env w)) = false ->
     Js.truthy_opt (GOOGLE_API_KEY (process_env w)) = false ->
     msg = err_api_key /\ w' = w).
Proof.
  intros message history w w' e H.
  destruct (generateChatResponse_throws _ _ _ H) as (msg & Hin & ->).
  destruct (generateChatResponse_frame _ _ _ H) as (Hs & _).
  exists msg. split; [reflexivity|]. split; [exact Hin|].
  split; [exact Hs|].
  intros Hk1 Hk2.
  rewrite (generateChatResponse_no_key message history w Hk1 Hk2) in H.
  injection H as <- <-. now split.
Qed.

Lemma generateChatResponse_failure_messages_witness :
  exists msg,
    Js.new_Error err_api_key = Js.new_Error msg /\
    In msg [err_api_key; err_quota; err_rate; err_generic] /\
    storage sample_world_no_key = storage sample_world_no_key /\
    msg = err_api_key.
Proof.
  destruct (@generateChatResponse_failure_messages "Hello" []
              sample_world_no_key sample_world_no_key
              (Js.new_Error err_api_key) eq_refl)
    as (msg & Heq & Hin & Hs & Hnokey).
  exists msg. repeat split; try assumption.
  now apply Hnokey.
Defined.

(** X14. Whatever the provider does, the title [generateConversationTitle]
    returns has at most 50 characters, contains no single and no double
    quote, and neither starts nor ends with white space. *)
Theorem generateConversationTitle_shape :
  forall (firstMessage : string) (w : World),
  exists title w',
    generateConversationTitle firstMessage w = (Normal title, w') /\
    (String.length title <= 50)%nat /\
    no_quote title /\
    starts_with_space title = false /\
    ends_with_space title = false.
Proof.
  intros firstMessage w.
  unfold generateConversationTitle, try_catch, bind,
    ai_models_generateContent.
  destruct (ai_src w 0%nat (title_request firstMessage)) as [text|e].
  - do 2 eexists. split; [reflexivity|].
    set (raw := Js.or_else (option_map (Js.substring0 50) text)
                  default_title).
    assert (Hraw : (String.length raw <= 50)%nat).
    { subst raw. destruct text as [s|]; simpl; [|lia].
      destruct (Js.truthy (Js.substring0 50 s)); [|simpl; lia].
      rewrite substring0_length. lia. }
    destruct (cleaned_title_shape raw) as (Hlen & Hq & Hs & He).
    repeat split; try assumption. lia.
  - do 2 eexists. split; [reflexivity|].
    destruct (cleaned_title_shape default_title) as (Hlen & Hq & Hs & He).
    rewrite default_title_clean in *.
    repeat split; try assumption. simpl. lia.
Qed.

(** X15. The fallback title guards only an empty provider text.  When the
    provider resolves with a text that is not empty but whose first 50
    characters are quotes and white space only, the title returned is the
    empty string, not the literal New Conversation. *)
Theorem generateConversationTitle_can_be_empty :
  forall (firstMessage text : string) (w : World),
  ai_src w 0%nat (title_request firstMessage) = Resolved (Some text) ->
  Js.truthy text = true ->
  Js.all_space (Js.strip_quotes (Js.substring0 50 text)) = true ->
  exists w',
    generateConversationTitle firstMessage w = (Normal EmptyString, w').
Proof.
  intros firstMessage text w Hai Htext Hblank.
  unfold generateConversationTitle, try_catch, bind,
    ai_models_generateContent.
  rewrite Hai. eexists. unfold ret. simpl option_map. unfold Js.or_else.
  rewrite (substring0_truthy 49 text Htext).
  now rewrite (trim_all_space _ Hblank).
Qed.

Lemma generateConversationTitle_can_be_empty_witness :
  exists w',
    generateConversationTitle "Hello" sample_world_quotes
    = (Normal EmptyString, w').
Proof.
  apply (@generateConversationTitle_can_be_empty "Hello"
           (String Js.dquote (String Js.dquote EmptyString))
           sample_world_quotes);
    reflexivity.
Defined.

(** X16. Of the first message, [generateConversationTitle] sends the
    provider its first 200 characters and no more, between double quotes
    after a fixed text: the whole message when it has at most 200
    characters.  Two messages that agree on their first 200 characters
    make the same provider call. *)
Theorem title_request_truncates :
  forall (firstMessage : string),
  exists quoted rest,
    gc_contents (title_request firstMessage) =
      [ {| c_role := "user";
           c_parts := [ (title_prompt_head
                         ++ String Js.dquote quoted
                         ++ String Js.dquote EmptyString)%string ] |} ] /\
    firstMessage = (quoted ++ rest)%string /\
    String.length quoted = Nat.min 200 (String.length firstMessage) /\
    ((String.length firstMessage <= 200)%nat -> quoted = firstMessage) /\
    forall other,
      Js.substring0 200 other = quoted ->
      title_request other = title_request firstMessage.
Proof.
  intros firstMessage.
  destruct (substring0_prefix 200 firstMessage) as (rest & Hrest).
  exists (Js.substring0 200 firstMessage), rest.
  split; [reflexivity|]. split; [exact Hrest|].
  split; [apply substring0_length|]. split.
  - intros Hshort.
    assert (Hlen : String.length rest = 0%nat).
    { apply (f_equal String.length) in Hrest.
      rewrite string_app_length, substring0_length in Hrest. lia. }
    destruct rest; [|discriminate Hlen].
    rewrite Hrest at 2. now rewrite string_app_nil_r.
  - intros other Hother. unfold title_request, title_prompt.
    now rewrite Hother.
Qed.

Lemma title_request_truncates_witness :
  exists quoted rest,
    "Hello" = (quoted ++ rest)%string /\ quoted = "Hello".
Proof.
  destruct (title_request_truncates "Hello")
    as (quoted & rest & _ & Hsplit & _ & Hshort & _).
  exists quoted, rest. split; [exact Hsplit|].
  apply Hshort. simpl. lia.
Defined.

(** X17. The chat route never checks that the conversation a request
    names exists.  For a non-empty id that names no conversation and has
    no messages, a turn whose generation succeeds is answered 200 with
    that id; no conversation is created, so the listing still lacks the
    id, and the two messages are stored under it:
    [getMessagesByConversation] of the id returns the user message and
    the assistant message.  The ids of [randomUUID()] are taken to be new
    and the second reading of the clock not earlier than the first. *)
Theorem chat_under_unknown_conversation :
  forall (Body : Type) (parse : Body -> string + ChatRequest) (body : Body)
         (message X reply : string) (w w1 : World),
  parse body =
    inr {| req_message := message; req_conversationId := Some X |} ->
  Js.truthy X = true ->
  map_has X (conversations (storage w)) = false ->
  messages_under X (storage w) = [] ->
  generateChatResponse message [] w = (Normal reply, w1) ->
  uuid_fresh 2 w ->
  date_src w 0%nat <= date_src w 1%nat ->
  exists w',
    post_api_chat parse body w =
      (Normal {| res_status := 200; res_body := ChatBody reply X |}, w') /\
    conversations (storage w') = conversations (storage w) /\
    map_has X (conversations (storage w')) = false /\
    getMessagesByConversation X w' =
      (Normal
         [ {| msg_id := uuid_src w 0%nat; conversationId := Some X;
              role := "user"; content := message;
              timestamp := date_src w 0%nat |};
           {| msg_id := uuid_src w 1%nat; conversationId := Some X;
              role := "assistant"; content := reply;
              timestamp := date_src w 1%nat |} ], w').
Proof.
  intros Body parse body message X reply w w1
         Hparse Htruthy Habsent Hnone Hgen Hfresh Hclock.
  set (request := {| req_message := message;
                     req_conversationId := Some X |}) in *.
  assert (Hhist : chat_history request (storage w) = []).
  { unfold chat_history. simpl. now rewrite Htruthy, Hnone. }
  rewrite <- Hhist in Hgen.
  destruct (@chat_try_existing Body parse body request X reply w w1
              Hparse eq_refl Htruthy Hgen Hfresh)
    as (w' & Hrun & _ & Hconvs & Hmsgs).
  exists w'. split; [unfold post_api_chat; now apply try_normal|].
  split; [exact Hconvs|]. split; [now rewrite Hconvs|].
  rewrite getMessagesByConversation_run.
  rewrite (@messages_under_appended X X (storage w) (storage w')
             _ _ _ _ Hmsgs eq_refl eq_refl).
  rewrite Hnone, String.eqb_refl. simpl.
  unfold oldest_first. simpl.
  destruct (Z.leb_spec (date_src w 0%nat - date_src w 1%nat) 0);
    [reflexivity | lia].
Qed.

Lemma chat_under_unknown_conversation_witness :
  exists w',
    post_api_chat chatRequestSchema_parse
      {| raw_message := JString "Anyone"; raw_conversationId := JString "c-7" |}
      sample_world
    = (Normal {| res_status := 200;
                 res_body := ChatBody "Welcome back" "c-7" |}, w') /\
    map_has "c-7" (conversations (storage w')) = false.
Proof.
  destruct (@chat_under_unknown_conversation RawBody chatRequestSchema_parse
              {| raw_message := JString "Anyone";
                 raw_conversationId := JString "c-7" |}
              "Anyone" "c-7" "Welcome back" sample_world
              (snd (generateChatResponse "Anyone" [] sample_world))
              eq_refl eq_refl eq_refl eq_refl eq_refl
              (uuid_fresh_weaken sample_world_fresh))
    as (w' & Hrun & _ & Habsent & _).
  - simpl. lia.
  - exists w'. now split.
Defined.

(** X18. An empty string as [conversationId] is treated exactly as no
    [conversationId]: the route answers the two requests alike and
    leaves the same world, so the turn opens a new conversation. *)
Theorem chat_empty_conversationId_as_absent :
  forall (Body : Type) (parse : Body -> string + ChatRequest)
         (body body' : Body) (message : string) (w : World),
  parse body =
    inr {| req_message := message;
           req_conversationId := Some EmptyString |} ->
  parse body' =
    inr {| req_message := message; req_conversationId := None |} ->
  post_api_chat parse body w = post_api_chat parse body' w.
Proof.
  intros Body parse body body' message w Hparse Hparse'.
  unfold post_api_chat, try_catch, chat_try.
  erewrite bind_normal
    by (unfold parse_body; rewrite Hparse; reflexivity).
  erewrite (bind_normal (parse_body parse body'))
    by (unfold parse_body; rewrite Hparse'; reflexivity).
  reflexivity.
Qed.

Lemma chat_empty_conversationId_as_absent_witness :
  post_api_chat chatRequestSchema_parse
    {| raw_message := JString "Hello";
       raw_conversationId := JString EmptyString |} sample_world
  = post_api_chat chatRequestSchema_parse
      {| raw_message := JString "Hello"; raw_conversationId := JUndefined |}
      sample_world.
Proof.
  apply (@chat_empty_conversationId_as_absent RawBody
           chatRequestSchema_parse _ _ "Hello" sample_world);
    reflexivity.
Defined.



(** X20. A request served from its first statement to its answer with no
    other request interleaved keeps transcripts well formed, whichever
    route it takes: if, before it, the ids of [randomUUID()] are new, the
    clock does not step back, the message map is in timestamp order and
    the messages of each conversation are exchanges (a user message
    followed by the assistant message that answers it), the same holds
    after it, whether the turn succeeds or fails.  An empty store is such
    a state.  The chat handler awaits between its two writes: chat
    requests that overlap are outside this statement. *)
Theorem routes_keep_transcripts :
  (forall env uuids dates provider,
     (forall i j, uuids i = uuids j -> i = j) ->
     (forall i, Js.truthy (uuids i) = true) ->
     (forall i j, (i <= j)%nat -> dates i <= dates j) ->
     transcript_ok {| storage := MemStorage_new; process_env := env;
                      uuid_src := uuids; date_src := dates;
                      ai_src := provider |}) /\
  (forall (Body : Type) (parse : Body -> string + ChatRequest) (body : Body),
     keeps_transcripts (post_api_chat parse body)) /\
  (forall id, keeps_transcripts (delete_api_conversation id)) /\
  (forall id, keeps_transcripts (get_api_conversation_messages id)) /\
  keeps_transcripts get_api_conversations.
Proof.
  split; [exact transcript_ok_start|].
  split; [exact keeps_post_api_chat|].
  split; [exact keeps_delete_api_conversation|].
  split; [exact keeps_get_api_conversation_messages|].
  exact keeps_get_api_conversations.
Qed.

Lemma routes_keep_transcripts_witness :
  transcript_ok
    (snd (post_api_chat chatRequestSchema_parse
            {| raw_message := JString "Hello";
               raw_conversationId := JUndefined |} start_world)).
Proof.
  destruct routes_keep_transcripts as (Hstart & Hpost & _).
  eapply Hpost; [|apply surjective_pairing].
  apply Hstart.
  - apply tally_injective.
  - apply tally_truthy.
  - intros i j Hij. lia.
Defined.





(** X23. A message created with a non-empty [conversationId] is found
    again: [getMessagesByConversation] of that id returns it, with the
    role and content given, and [getMessagesByConversation] of any other
    id does not. *)
Theorem createMessage_then_getMessagesByConversation :
  forall (cid role_ content_ : string) (w : World),
  Js.truthy cid = true ->
  exists m w',
    createMessage {| im_conversationId := Some cid; im_role := role_;
                     im_content := content_ |} w = (Normal m, w') /\
    role m = role_ /\ content m = content_ /\
    conversationId m = Some cid /\
    (forall out, fst (getMessagesByConversation cid w') = Normal out ->
                 In m out) /\
    (forall other out,
       other <> cid ->
       fst (getMessagesByConversation other w') = Normal out ->
       ~ In m out).
Proof.
  intros cid role_ content_ w Htruthy.
  destruct (createMessage_run
              {| im_conversationId := Some cid; im_role := role_;
                 im_content := content_ |} w)
    as (m & w' & Hrun & Hcid & Hrole & Hcontent & Hin).
  simpl in Hcid, Hrole, Hcontent. rewrite Htruthy in Hcid.
  exists m, w'. split; [exact Hrun|].
  split; [exact Hrole|]. split; [exact Hcontent|]. split; [exact Hcid|].
  split.
  - intros out Hout. rewrite getMessagesByConversation_run in Hout.
    injection Hout as <-.
    rewrite (array_sort_In oldest_first). apply messages_under_In.
    now split.
  - intros other out Hne Hout.
    rewrite getMessagesByConversation_run in Hout. injection Hout as <-.
    rewrite (array_sort_In oldest_first). intros Hm.
    apply messages_under_In in Hm. destruct Hm as [_ Hother].
    congruence.
Qed.

Lemma createMessage_then_getMessagesByConversation_witness :
  exists m w',
    createMessage {| im_conversationId := Some "c-1"; im_role := "user";
                     im_content := "Again" |} sample_world
    = (Normal m, w') /\
    content m = "Again" /\
    conversationId m = Some "c-1".
Proof.
  destruct (@createMessage_then_getMessagesByConversation "c-1" "user"
              "Again" sample_world eq_refl)
    as (m & w' & Hrun & _ & Hcontent & Hcid & _).
  now exists m, w'.
Defined.
